(** * Case-conversion helpers: a shallow embedding of the JavaScript sources

    The development follows the three source files:
    - [Js]             the fragment of ECMAScript the sources rely on
                       (values, [typeof], strings as UTF-16 code units,
                       [String.prototype] and [Array.prototype] methods and
                       the six regular-expression replacements that occur);
    - [ChainPrompt]    chain_prompt.js  ([normalizeString], the [chain*]
                       converters and [toKebabCase]);
    - [RefinedPrompt]  refined_prompt.js ([robustCamelCase], [toDotCase],
                       [camelCase], [toSnakeCase], [toCamelCase]);
    - [FewShotPrompt]  few_shot_prompt.js (the table of examples).

    Definitions come first, then the lemmas on the string operations, then
    the theorems on the converters. *)

From Stdlib Require Import List NArith ZArith Bool String Ascii Lia.
Import ListNotations.

(* ================================================================== *)
(** ** The ECMAScript fragment *)
(* ================================================================== *)

Module Js.

Local Open Scope N_scope.

(** A JavaScript string is a sequence of 16-bit code units. *)
Definition codeUnit := N.
Definition jsstring := list codeUnit.

(** String literals of the sources are ASCII; [js "abc"] is the code-unit
    sequence of such a literal. *)
Definition js (s : string) : jsstring :=
  List.map N_of_ascii (list_ascii_of_string s).

(** *** Values and [typeof] *)

(** [JsStringObject s] is the wrapper object [new String(s)]: its [typeof]
    is ["object"], and it inherits the methods of [String.prototype].
    [JsObject] stands for an ordinary object and [JsFunction] for a callable
    one; neither carries a member named [toLowerCase] (as [{}], arrays and
    plain functions do not).  The payload of a number is irrelevant to the
    sources, which only inspect the type tag of a non-string. *)
Inductive JsValue : Type :=
| JsUndefined
| JsNull
| JsBoolean (b : bool)
| JsNumber (n : Z)
| JsBigInt (n : Z)
| JsString (s : jsstring)
| JsSymbol (description : jsstring)
| JsStringObject (s : jsstring)
| JsObject
| JsFunction.

(** [typeof v] *)
Definition typeof (v : JsValue) : jsstring :=
  match v with
  | JsUndefined => js "undefined"
  | JsNull      => js "object"
  | JsBoolean _ => js "boolean"
  | JsNumber _  => js "number"
  | JsBigInt _  => js "bigint"
  | JsString _  => js "string"
  | JsSymbol _  => js "symbol"
  | JsStringObject _ => js "object"
  | JsObject    => js "object"
  | JsFunction  => js "function"
  end.

Definition is_string (v : JsValue) : bool :=
  match v with JsString _ => true | _ => false end.

Definition is_null (v : JsValue) : bool :=
  match v with JsNull => true | _ => false end.

(** *** Completions: a call returns normally or throws *)

(** Why the engine itself raised a [TypeError]; the message of such an error
    is implementation-defined. *)
Inductive EngineCause : Type :=
| NullishReceiver   (* a property read on [undefined] or [null] *)
| NotCallable.      (* a call of a member that is [undefined] *)

Inductive JsError : Type :=
| TypeError (message : jsstring)          (* [throw new TypeError(message)] *)
| EngineTypeError (cause : EngineCause).

Inductive Completion (A : Type) : Type :=
| Normal (a : A)
| Throw (e : JsError).

Arguments Normal {A} a.
Arguments Throw {A} e.

Definition bind {A B} (c : Completion A) (k : A -> Completion B) : Completion B :=
  match c with
  | Normal a => k a
  | Throw e => Throw e
  end.

(** *** Character classes *)

Definition inRange (lo hi c : codeUnit) : bool := (lo <=? c) && (c <=? hi).

Definition isLower (c : codeUnit) : bool := inRange 97 122 c.   (* [a-z] *)
Definition isUpper (c : codeUnit) : bool := inRange 65 90 c.    (* [A-Z] *)
Definition isDigit (c : codeUnit) : bool := inRange 48 57 c.    (* [0-9] *)
Definition isAlpha (c : codeUnit) : bool := isLower c || isUpper c.
Definition isAlnum (c : codeUnit) : bool := isAlpha c || isDigit c.

(** LineTerminator: LF, CR, LS, PS. *)
Definition isLineTerminator (c : codeUnit) : bool :=
  existsb (N.eqb c) [10; 13; 8232; 8233].

(** The class [\s], which is also what [trim] strips: WhiteSpace (TAB, VT, FF,
    SP, NBSP, ZWNBSP and the Space_Separator category) and LineTerminator. *)
Definition isWhiteSpace (c : codeUnit) : bool :=
  existsb (N.eqb c) [9; 11; 12; 32; 160; 5760; 8239; 8287; 12288; 65279]
  || inRange 8192 8202 c
  || isLineTerminator c.

Definition SP : codeUnit := 32.

(** *** [String.prototype] *)

Definition lowerUnit (c : codeUnit) : codeUnit := if isUpper c then c + 32 else c.
Definition upperUnit (c : codeUnit) : codeUnit := if isLower c then c - 32 else c.

(** [s.toLowerCase()] and [s.toUpperCase()].  Exact on ASCII code units; the
    Unicode case mapping of code units from 128 on is not modelled (they are
    left as they are).  Every call in the sources but the one in [toCamelCase]
    receives a string of ASCII letters, digits and spaces, and the theorems
    on [toCamelCase] are at ASCII inputs. *)
Definition toLowerCase (s : jsstring) : jsstring := List.map lowerUnit s.
Definition toUpperCase (s : jsstring) : jsstring := List.map upperUnit s.

(** The values that have a method [toLowerCase]: the strings and the String
    objects. *)
Definition has_toLowerCase (v : JsValue) : bool :=
  match v with
  | JsString _ | JsStringObject _ => true
  | _ => false
  end.

(** [v.toLowerCase()] on any value.  On a string and on a String object it
    is the method of [String.prototype], which returns a string; reading
    the member of [undefined] or [null] throws, and so does calling the
    member that the other values do not have. *)
Definition call_toLowerCase (v : JsValue) : Completion jsstring :=
  match v with
  | JsString s | JsStringObject s => Normal (toLowerCase s)
  | JsUndefined | JsNull => Throw (EngineTypeError NullishReceiver)
  | _ => Throw (EngineTypeError NotCallable)
  end.

Fixpoint dropWhile (p : codeUnit -> bool) (s : jsstring) : jsstring :=
  match s with
  | [] => []
  | c :: s' => if p c then dropWhile p s' else s
  end.

Definition trimStart (s : jsstring) : jsstring := dropWhile isWhiteSpace s.

Fixpoint trimEnd (s : jsstring) : jsstring :=
  match s with
  | [] => []
  | c :: s' =>
      match trimEnd s' with
      | [] => if isWhiteSpace c then [] else [c]
      | r => c :: r
      end
  end.

(** [s.trim()] *)
Definition trim (s : jsstring) : jsstring := trimEnd (trimStart s).

(** [s.charAt(i)]: the code unit at [i] as a string, or [""] out of range. *)
Definition charAt (i : nat) (s : jsstring) : jsstring :=
  match nth_error s i with
  | Some c => [c]
  | None => []
  end.

(** [s.slice(i)] for [i >= 0]. *)
Definition slice (i : nat) (s : jsstring) : jsstring := skipn i s.

(** [s.split(sep)] for a separator of one code unit; the result is never the
    empty array ([""] splits to [[""]]). *)
Fixpoint split (sep : codeUnit) (s : jsstring) : list jsstring :=
  match s with
  | [] => [[]]
  | c :: s' =>
      if c =? sep then [] :: split sep s'
      else match split sep s' with
           | w :: ws => (c :: w) :: ws
           | [] => [[c]]
           end
  end.

(** *** [Array.prototype] *)

(** [a.join(sep)] *)
Fixpoint join (sep : jsstring) (a : list jsstring) : jsstring :=
  match a with
  | [] => []
  | [w] => w
  | w :: ws => w ++ sep ++ join sep ws
  end.

(** [a.map((x, index) => f(x, index))], counting from [i]. *)
Fixpoint mapi_from {A B} (i : nat) (f : A -> nat -> B) (a : list A) : list B :=
  match a with
  | [] => []
  | x :: a' => f x i :: mapi_from (S i) f a'
  end.

Definition mapi {A B} (f : A -> nat -> B) (a : list A) : list B := mapi_from 0 f a.

(** The callback [word => word.length > 0]. *)
Definition nonEmpty (w : jsstring) : bool := negb (Nat.eqb (List.length w) 0).

(** *** The regular-expression replacements of the sources *)

(** [s.replace(/[^a-zA-Z0-9\s]/g, ' ')] *)
Definition replace_notAlnumWs (s : jsstring) : jsstring :=
  List.map (fun c => if isAlnum c || isWhiteSpace c then c else SP) s.

(** [s.replace(/[^a-zA-Z\s]/g, ' ')] *)
Definition replace_notAlphaWs (s : jsstring) : jsstring :=
  List.map (fun c => if isAlpha c || isWhiteSpace c then c else SP) s.

(** [s.replace(/\s+/g, ' ')]: a left-to-right scan; [inRun] tells that the
    code unit before was white space, whose run has already been replaced. *)
Fixpoint collapseWs (inRun : bool) (s : jsstring) : jsstring :=
  match s with
  | [] => []
  | c :: s' =>
      if isWhiteSpace c
      then (if inRun then collapseWs true s' else SP :: collapseWs true s')
      else c :: collapseWs false s'
  end.

Definition replace_wsRuns (s : jsstring) : jsstring := collapseWs false s.

(** [s.replace(/([a-z])([A-Z])/g, '$1 $2')]: matches do not overlap, the scan
    resumes after the upper-case letter. *)
Fixpoint replace_lowerUpper (s : jsstring) : jsstring :=
  match s with
  | [] => []
  | a :: s' =>
      match s' with
      | b :: s'' =>
          if isLower a && isUpper b
          then a :: SP :: b :: replace_lowerUpper s''
          else a :: replace_lowerUpper s'
      | [] => [a]
      end
  end.

(** The class [[-_\s]]. *)
Definition isCamelSep (c : codeUnit) : bool :=
  (c =? 45) || (c =? 95) || isWhiteSpace c.

(** [s.replace(/[-_\s]+(.)?/g, (_, c) => c ? c.toUpperCase() : '')]: the run
    is greedy, so the code unit after it is outside the class, hence no line
    terminator, and [(.)] captures it whenever there is one. *)
Fixpoint sepRuns (inRun : bool) (s : jsstring) : jsstring :=
  match s with
  | [] => []
  | c :: s' =>
      if isCamelSep c then sepRuns true s'
      else if inRun then toUpperCase [c] ++ sepRuns false s'
      else c :: sepRuns false s'
  end.

Definition replace_sepRuns (s : jsstring) : jsstring := sepRuns false s.

(** [s.replace(/^(.)/, c => c.toLowerCase())] *)
Definition replace_first (s : jsstring) : jsstring :=
  match s with
  | [] => []
  | c :: s' => if isLineTerminator c then s else toLowerCase [c] ++ s'
  end.

End Js.

Import Js.

Declare Scope js_scope.
Notation "x <- c ;; k" := (bind c (fun x => k))
  (at level 61, c at next level, right associativity) : js_scope.
Local Open Scope js_scope.

(** [`Input must be a string, received ${str === null ? 'null' : typeof str}`]:
    the message of the error called InvalidInputType. *)
Definition invalidInputMessage (str : JsValue) : jsstring :=
  js "Input must be a string, received "
  ++ (if is_null str then js "null" else typeof str).

Definition InvalidInputType (str : JsValue) : JsError :=
  TypeError (invalidInputMessage str).

(* ================================================================== *)
(** ** chain_prompt.js *)
(* ================================================================== *)

Module ChainPrompt.

(** The string part of [normalizeString], after the type check. *)
Definition normalized (s : jsstring) : jsstring :=
  trim (replace_wsRuns (replace_notAlnumWs (trim s))).

Definition normalizeString (str : JsValue) : Completion (list jsstring) :=
  match str with
  | JsString s =>
      let s := trim s in
      if Nat.eqb (List.length s) 0 then Normal []
      else
        let s := trim (replace_wsRuns (replace_notAlnumWs s)) in
        Normal (filter nonEmpty (split SP s))
  | _ => Throw (InvalidInputType str)
  end.

(** [lower.charAt(0).toUpperCase() + lower.slice(1)] *)
Definition capitalize (lower : jsstring) : jsstring :=
  toUpperCase (charAt 0 lower) ++ slice 1 lower.

(** The bodies of the [chain*] converters after [normalizeString(str)]. *)
Definition renderCamel (words : list jsstring) : jsstring :=
  if Nat.eqb (List.length words) 0 then []
  else join [] (mapi (fun word index =>
                        let lower := toLowerCase word in
                        if Nat.eqb index 0 then lower else capitalize lower)
                     words).

Definition renderSnake (words : list jsstring) : jsstring :=
  join (js "_") (List.map toLowerCase words).

Definition renderDot (words : list jsstring) : jsstring :=
  join (js ".") (List.map toLowerCase words).

Definition renderKebab (words : list jsstring) : jsstring :=
  join (js "-") (List.map toLowerCase words).

Definition renderPascal (words : list jsstring) : jsstring :=
  join [] (List.map (fun word => capitalize (toLowerCase word)) words).

Definition chainCamelCase (str : JsValue) : Completion jsstring :=
  words <- normalizeString str ;; Normal (renderCamel words).

Definition chainSnakeCase (str : JsValue) : Completion jsstring :=
  words <- normalizeString str ;; Normal (renderSnake words).

Definition chainDotCase (str : JsValue) : Completion jsstring :=
  words <- normalizeString str ;; Normal (renderDot words).

Definition chainKebabCase (str : JsValue) : Completion jsstring :=
  words <- normalizeString str ;; Normal (renderKebab words).

Definition chainPascalCase (str : JsValue) : Completion jsstring :=
  words <- normalizeString str ;; Normal (renderPascal words).

Definition toKebabCase (str : JsValue) : Completion jsstring :=
  match str with
  | JsString s =>
      let s := trim s in
      if Nat.eqb (List.length s) 0 then Normal []
      else
        let s := replace_notAlnumWs s in
        let s := replace_lowerUpper s in
        let s := trim (replace_wsRuns s) in
        let words := filter nonEmpty (split SP s) in
        if Nat.eqb (List.length words) 0 then Normal []
        else Normal (join (js "-") (List.map toLowerCase words))
  | _ => Throw (InvalidInputType str)
  end.

End ChainPrompt.

(* ================================================================== *)
(** ** refined_prompt.js *)
(* ================================================================== *)

Module RefinedPrompt.

Definition robustCamelCase (str : JsValue) : Completion jsstring :=
  match str with
  | JsString s =>
      let s := trim s in
      if Nat.eqb (List.length s) 0 then Normal []
      else
        let s := trim (replace_wsRuns (replace_notAlnumWs s)) in
        let words := filter nonEmpty (split SP s) in
        if Nat.eqb (List.length words) 0 then Normal []
        else
          Normal (join [] (mapi (fun word index =>
                                   let lowerWord := toLowerCase word in
                                   if Nat.eqb index 0 then lowerWord
                                   else toUpperCase (charAt 0 lowerWord)
                                        ++ slice 1 lowerWord)
                                words))
  | _ => Throw (InvalidInputType str)
  end.

Definition toDotCase (str : JsValue) : Completion jsstring :=
  match str with
  | JsString s =>
      let s := trim s in
      if Nat.eqb (List.length s) 0 then Normal []
      else
        let s := trim (replace_wsRuns (replace_notAlnumWs s)) in
        Normal (join (js ".") (filter nonEmpty (split SP (toLowerCase s))))
  | _ => Throw (InvalidInputType str)
  end.

(** [`Error: Input must be a string, but received ${typeof str}`]: the string
    that [camelCase] and [toSnakeCase] return for a non-string. *)
Definition errorString (str : JsValue) : jsstring :=
  js "Error: Input must be a string, but received " ++ typeof str.

Definition camelCase (str : JsValue) : Completion jsstring :=
  match str with
  | JsString s =>
      let s := trim s in
      if Nat.eqb (List.length s) 0 then Normal []
      else
        let s := trim (replace_wsRuns (replace_notAlphaWs s)) in
        Normal (join []
                  (filter nonEmpty
                     (mapi (fun word index =>
                              if Nat.eqb (List.length word) 0 then []
                              else if Nat.eqb index 0 then word
                              else toUpperCase (charAt 0 word) ++ slice 1 word)
                           (split SP (toLowerCase s)))))
  | _ => Normal (errorString str)
  end.

Definition toSnakeCase (str : JsValue) : Completion jsstring :=
  match str with
  | JsString s =>
      let s := trim s in
      if Nat.eqb (List.length s) 0 then Normal []
      else
        let s := trim (replace_wsRuns (replace_notAlnumWs s)) in
        Normal (join (js "_") (filter nonEmpty (split SP (toLowerCase s))))
  | _ => Normal (errorString str)
  end.

(** [toCamelCase] has no type check: [str.toLowerCase()] is evaluated on
    whatever it receives, and the two replacements are made on the string
    it returns. *)
Definition toCamelCase (str : JsValue) : Completion jsstring :=
  lowered <- call_toLowerCase str ;;
  Normal (replace_first (replace_sepRuns lowered)).

End RefinedPrompt.

(* ================================================================== *)
(** ** few_shot_prompt.js *)
(* ================================================================== *)

Module FewShotPrompt.

Record Example : Type := {
  input : jsstring;
  camelCase : jsstring;
  snake_case : jsstring;
  pascalCase : jsstring
}.

Definition examples : list Example :=
  [ {| input := js "hello world"; camelCase := js "helloWorld";
       snake_case := js "hello_world"; pascalCase := js "HelloWorld" |};
    {| input := js "user_first_name"; camelCase := js "userFirstName";
       snake_case := js "user_first_name"; pascalCase := js "UserFirstName" |};
    {| input := js "Hello@World#Test!"; camelCase := js "helloWorldTest";
       snake_case := js "hello_world_test"; pascalCase := js "HelloWorldTest" |};
    {| input := js "  hello   world  "; camelCase := js "helloWorld";
       snake_case := js "hello_world"; pascalCase := js "HelloWorld" |} ].

End FewShotPrompt.

Import ChainPrompt RefinedPrompt.

(* ================================================================== *)
(** ** Vocabulary of the statements *)
(* ================================================================== *)

(** The type name an InvalidInputType message carries. *)
Definition runtimeTypeName (v : JsValue) : jsstring :=
  if is_null v then js "null" else typeof v.

(** A lower-case letter or a digit: what a letter or digit becomes under
    [toLowerCase]. *)
Definition isLowerAlnum (c : codeUnit) : bool := isLower c || isDigit c.

(** A word over a class: a non-empty string of code units of the class. *)
Definition word (p : codeUnit -> bool) (w : jsstring) : Prop :=
  w <> [] /\ Forall (fun c => p c = true) w.

Definition notWs (c : codeUnit) : bool := negb (isWhiteSpace c).

(** No [SP] follows another; [prevSp] tells that the code unit before was
    one (so that a string accepted with [prevSp = true] does not begin with
    [SP] either). *)
Fixpoint singleSpaced (prevSp : bool) (s : jsstring) : bool :=
  match s with
  | [] => true
  | c :: s' =>
      if N.eqb c SP then negb prevSp && singleSpaced true s'
      else singleSpaced false s'
  end.


(** *** A reference tokenizer *)

(** The word read so far, if there is one. *)
Definition flush (acc : jsstring) : list jsstring :=
  match acc with
  | [] => []
  | _ => [acc]
  end.

(** One pass from left to right: [acc] collects the code units since the
    last separator, and every separator emits the collected word unless it
    is empty.  [scan sep [] s] lists the maximal runs of code units of [s]
    that are no separators. *)
Fixpoint scan (sep : codeUnit -> bool) (acc s : jsstring) : list jsstring :=
  match s with
  | [] => flush acc
  | c :: s' =>
      if sep c then flush acc ++ scan sep [] s'
      else scan sep (acc ++ [c]) s'
  end.

Definition notAlnum (c : codeUnit) : bool := negb (isAlnum c).
Definition notAlpha (c : codeUnit) : bool := negb (isAlpha c).

(** The maximal runs of ASCII letters and digits of a string. *)
Definition alnumRuns (s : jsstring) : list jsstring := scan notAlnum [] s.

(** A string rendered with the separator [sep]: lower-case letters, digits
    and [sep], with no [sep] at either end and no two in a row. *)
Definition wellSeparated (sep : codeUnit) (r : jsstring) : Prop :=
  Forall (fun c => isLowerAlnum c = true \/ c = sep) r /\
  (forall t, r <> sep :: t) /\
  (forall t, r <> t ++ [sep]) /\
  (forall a b, r <> a ++ sep :: sep :: b).

(** The first code unit of a string, if any, is outside the class [p]. *)
Definition startsOutside (p : codeUnit -> bool) (r : jsstring) : Prop :=
  match r with
  | [] => True
  | c :: _ => p c = false
  end.

(** The callback of [chainCamelCase] and [robustCamelCase], and that of
    [chainPascalCase]. *)
Definition camelWord (word : jsstring) (index : nat) : jsstring :=
  let lower := toLowerCase word in
  if Nat.eqb index 0 then lower else capitalize lower.

Definition pascalWord (word : jsstring) : jsstring :=
  capitalize (toLowerCase word).

(** The callback of [camelCase]. *)
Definition camelCaseWord (word : jsstring) (index : nat) : jsstring :=
  if Nat.eqb (List.length word) 0 then []
  else if Nat.eqb index 0 then word
  else toUpperCase (charAt 0 word) ++ slice 1 word.

(** A string of ASCII code units: the strings on which the case mappings of
    the model are those of the language. *)
Definition isAscii (s : jsstring) : Prop := Forall (fun c => (c < 128)%N) s.

(* ================================================================== *)
(** ** Code units *)
(* ================================================================== *)

Section CodeUnits.

Local Open Scope N_scope.

Lemma inRange_spec lo hi c : inRange lo hi c = true <-> lo <= c /\ c <= hi.
Proof.
  unfold inRange. rewrite andb_true_iff, !N.leb_le. tauto.
Qed.

Lemma inRange_false lo hi c : inRange lo hi c = false <-> c < lo \/ hi < c.
Proof.
  unfold inRange. rewrite andb_false_iff, !N.leb_gt. tauto.
Qed.

Lemma isAlnum_spec c :
  isAlnum c = true <->
  (97 <= c /\ c <= 122) \/ (65 <= c /\ c <= 90) \/ (48 <= c /\ c <= 57).
Proof.
  unfold isAlnum, isAlpha, isLower, isUpper, isDigit.
  rewrite !orb_true_iff, !inRange_spec. tauto.
Qed.

Lemma isWhiteSpace_SP : isWhiteSpace SP = true.
Proof. reflexivity. Qed.

(** In the ASCII range the white space is TAB, LF, VT, FF, CR and SP. *)
Lemma isWhiteSpace_ascii c :
  33 <= c -> c <= 127 -> isWhiteSpace c = false.
Proof.
  intros Hlo Hhi. unfold isWhiteSpace, isLineTerminator, inRange.
  cbn [existsb].
  repeat match goal with
         | |- context [N.eqb c ?k] => destruct (N.eqb_spec c k); [lia | ]
         end.
  destruct (N.leb_spec 8192 c); [lia | reflexivity].
Qed.

Lemma isAlnum_not_ws c : isAlnum c = true -> isWhiteSpace c = false.
Proof.
  rewrite isAlnum_spec. intros H. apply isWhiteSpace_ascii; lia.
Qed.

Lemma isAlpha_not_digit c : isAlpha c = true -> isDigit c = false.
Proof.
  unfold isAlpha, isLower, isUpper, isDigit.
  rewrite orb_true_iff, !inRange_spec, inRange_false. lia.
Qed.

Lemma not_ws_not_SP c : isWhiteSpace c = false -> c <> SP.
Proof. intros H ->. discriminate. Qed.

Lemma isLowerAlnum_isAlnum c : isLowerAlnum c = true -> isAlnum c = true.
Proof.
  unfold isLowerAlnum, isAlnum, isAlpha.
  rewrite !orb_true_iff. tauto.
Qed.

Lemma isLowerAlnum_not_upper c : isLowerAlnum c = true -> isUpper c = false.
Proof.
  unfold isLowerAlnum, isLower, isUpper, isDigit.
  rewrite orb_true_iff, !inRange_spec, inRange_false. lia.
Qed.

Lemma lowerUnit_fixed c : isUpper c = false -> lowerUnit c = c.
Proof. unfold lowerUnit. intros ->. reflexivity. Qed.

Lemma lowerUnit_SP : lowerUnit SP = SP.
Proof. reflexivity. Qed.

Lemma lowerUnit_alnum c : isAlnum c = true -> isLowerAlnum (lowerUnit c) = true.
Proof.
  unfold lowerUnit. destruct (isUpper c) eqn:E.
  - intros _. apply inRange_spec in E.
    unfold isLowerAlnum, isLower. rewrite orb_true_iff, inRange_spec. lia.
  - unfold isAlnum, isAlpha, isLowerAlnum. rewrite E, orb_false_r. tauto.
Qed.

Lemma lowerUnit_alpha c : isAlpha c = true -> isLower (lowerUnit c) = true.
Proof.
  unfold lowerUnit. destruct (isUpper c) eqn:E.
  - intros _. apply inRange_spec in E.
    unfold isLower. rewrite inRange_spec. lia.
  - unfold isAlpha. rewrite E, orb_false_r. tauto.
Qed.

Lemma upperUnit_lower c : isLower c = true -> isAlpha (upperUnit c) = true.
Proof.
  unfold upperUnit. intros E. rewrite E. apply inRange_spec in E.
  unfold isAlpha, isUpper. rewrite orb_true_iff, inRange_spec. lia.
Qed.

Lemma isLower_isAlpha c : isLower c = true -> isAlpha c = true.
Proof. unfold isAlpha. intros ->. reflexivity. Qed.

End CodeUnits.

(* ================================================================== *)
(** ** String and array operations *)
(* ================================================================== *)

Section Strings.

Local Open Scope N_scope.

Variable P : codeUnit -> Prop.

(** A two-step induction, for the scan of [replace_lowerUpper]. *)
Lemma pairs_ind (Q : list N -> Prop) :
  Q [] -> (forall a, Q [a]) ->
  (forall a b s, Q s -> Q (b :: s) -> Q (a :: b :: s)) ->
  forall s, Q s.
Proof.
  intros H0 H1 H2 s.
  assert (H : Q s /\ forall a, Q (a :: s)).
  { induction s as [ | b s [IH1 IH2]]; split; auto. }
  exact (proj1 H).
Qed.

(** *** Each operation keeps its code units inside a class *)

Lemma Forall_dropWhile p s : Forall P s -> Forall P (dropWhile p s).
Proof.
  induction 1 as [ | c s Hc Hs IH]; simpl; [constructor | ].
  destruct (p c); auto.
Qed.

Lemma Forall_trimEnd s : Forall P s -> Forall P (trimEnd s).
Proof.
  induction 1 as [ | c s Hc Hs IH]; simpl; [constructor | ].
  destruct (trimEnd s) as [ | d r].
  - destruct (isWhiteSpace c); auto.
  - auto.
Qed.

Lemma Forall_trim s : Forall P s -> Forall P (trim s).
Proof.
  intros H. apply Forall_trimEnd, Forall_dropWhile, H.
Qed.

(** [collapseWs] leaves [SP] as the only white space. *)
Lemma Forall_collapseWs b s :
  Forall (fun c => isWhiteSpace c = true \/ P c) s ->
  Forall (fun c => c = SP \/ P c) (collapseWs b s).
Proof.
  intros H. revert b.
  induction H as [ | c s Hc Hs IH]; intros b; simpl; [constructor | ].
  destruct (isWhiteSpace c) eqn:E; [destruct b; auto | ].
  constructor; [ | auto].
  destruct Hc as [Hc | Hc]; [congruence | auto].
Qed.

Lemma Forall_replace_lowerUpper s :
  P SP -> Forall P s -> Forall P (replace_lowerUpper s).
Proof.
  intros HSP. unfold jsstring, codeUnit in s.
  induction s as [ | a | a b s IH1 IH2] using pairs_ind; intros H.
  - constructor.
  - exact H.
  - change (replace_lowerUpper (a :: b :: s))
      with (if isLower a && isUpper b
            then a :: SP :: b :: replace_lowerUpper s
            else a :: replace_lowerUpper (b :: s)).
    inversion H as [ | ? ? Ha Hbs]; subst.
    inversion Hbs as [ | ? ? Hb Hs]; subst.
    destruct (isLower a && isUpper b); auto.
Qed.

Lemma split_not_nil sep s : split sep s <> [].
Proof.
  destruct s as [ | c s]; simpl; [discriminate | ].
  destruct (c =? sep); [discriminate | ].
  destruct (split sep s); discriminate.
Qed.

Lemma Forall_split sep s : Forall P s -> Forall (Forall P) (split sep s).
Proof.
  induction 1 as [ | c s Hc Hs IH]; simpl; [repeat constructor | ].
  destruct (c =? sep); [constructor; auto | ].
  destruct (split sep s) as [ | w ws]; [repeat constructor; auto | ].
  inversion IH; subst. constructor; auto.
Qed.

Lemma Forall_join sep a :
  Forall P sep -> Forall (Forall P) a -> Forall P (join sep a).
Proof.
  intros Hsep. induction 1 as [ | w ws Hw Hws IH]; simpl; [constructor | ].
  destruct ws; [exact Hw | ].
  apply Forall_app; split; [exact Hw | ].
  apply Forall_app; split; assumption.
Qed.

Lemma Forall_filter {A : Type} {R : A -> Prop} f {l : list A} :
  Forall R l -> Forall R (filter f l).
Proof.
  induction 1 as [ | x l Hx Hl IH]; simpl; [constructor | ].
  destruct (f x); auto.
Qed.

End Strings.

Section MoreStrings.

Local Open Scope N_scope.

(** [trimEnd] drops the trailing white space: it is [trimStart] on the
    reversed string. *)
Lemma dropWhile_snoc p s c :
  dropWhile p (s ++ [c])
  = match dropWhile p s with
    | [] => if p c then [] else [c]
    | r => r ++ [c]
    end.
Proof.
  induction s as [ | d s IH]; simpl; [reflexivity | ].
  destruct (p d); [exact IH | reflexivity].
Qed.

Lemma trimEnd_rev s : trimEnd s = rev (trimStart (rev s)).
Proof.
  unfold trimStart. induction s as [ | c s IH]; [reflexivity | ].
  simpl. rewrite dropWhile_snoc, IH.
  destruct (dropWhile isWhiteSpace (rev s)) as [ | d r].
  - simpl. destruct (isWhiteSpace c); reflexivity.
  - rewrite rev_app_distr. simpl.
    destruct (rev r ++ [d]) eqn:E; [ | reflexivity].
    apply app_eq_nil in E. destruct E as [_ E]. discriminate E.
Qed.

Lemma split_no_sep sep s : Forall (Forall (fun c => c <> sep)) (split sep s).
Proof.
  induction s as [ | c s IH]; simpl; [repeat constructor | ].
  destruct (N.eqb_spec c sep) as [E | E]; [constructor; auto | ].
  destruct (split sep s) as [ | w ws]; [repeat constructor; auto | ].
  inversion IH; subst. constructor; auto.
Qed.

Lemma filter_nonEmpty_spec ws : Forall (fun w => w <> []) (filter nonEmpty ws).
Proof.
  induction ws as [ | w ws IH]; simpl; [constructor | ].
  destruct w; simpl; auto. constructor; [discriminate | exact IH].
Qed.

Lemma filter_nonEmpty_id ws :
  Forall (fun w => w <> []) ws -> filter nonEmpty ws = ws.
Proof.
  induction 1 as [ | w ws Hw Hws IH]; simpl; [reflexivity | ].
  destruct w; [contradiction | ]. simpl. now rewrite IH.
Qed.

(** [join] undoes [split]. *)
Lemma join_split sep s : join [sep] (split sep s) = s.
Proof.
  induction s as [ | c s IH]; simpl; [reflexivity | ].
  destruct (N.eqb_spec c sep) as [E | E].
  - subst c. pose proof (split_not_nil sep s) as Hne.
    destruct (split sep s) as [ | w ws]; [contradiction | ].
    simpl in *. now rewrite IH.
  - pose proof (split_not_nil sep s) as Hne.
    destruct (split sep s) as [ | w ws]; [contradiction | ].
    simpl in *. destruct ws; now rewrite <- IH.
Qed.

(** [split] undoes [join] on words free of the separator. *)
Lemma split_word sep w : Forall (fun c => c <> sep) w -> split sep w = [w].
Proof.
  induction 1 as [ | c w Hc Hw IH]; simpl; [reflexivity | ].
  destruct (N.eqb_spec c sep); [contradiction | ]. now rewrite IH.
Qed.

Lemma split_app_word sep w s :
  Forall (fun c => c <> sep) w -> split sep (w ++ sep :: s) = w :: split sep s.
Proof.
  induction 1 as [ | c w Hc Hw IH]; simpl.
  - now rewrite N.eqb_refl.
  - destruct (N.eqb_spec c sep); [contradiction | ]. now rewrite IH.
Qed.

Lemma split_join sep ws :
  ws <> [] -> Forall (Forall (fun c => c <> sep)) ws ->
  split sep (join [sep] ws) = ws.
Proof.
  intros Hne H. induction H as [ | w ws Hw Hws IH]; [contradiction | ].
  destruct ws as [ | w' ws'].
  - simpl. now apply split_word.
  - change (join [sep] (w :: w' :: ws')) with (w ++ sep :: join [sep] (w' :: ws')).
    rewrite split_app_word by assumption.
    rewrite IH; [reflexivity | discriminate].
Qed.

Lemma map_join (f : codeUnit -> codeUnit) sep ws :
  List.map f (join sep ws) = join (List.map f sep) (List.map (List.map f) ws).
Proof.
  induction ws as [ | w ws IH]; [reflexivity | ].
  destruct ws as [ | w' ws']; [reflexivity | ].
  change (join sep (w :: w' :: ws')) with (w ++ sep ++ join sep (w' :: ws')).
  rewrite !map_app, IH. reflexivity.
Qed.

Lemma map_fixed (f : codeUnit -> codeUnit) s :
  Forall (fun c => f c = c) s -> List.map f s = s.
Proof.
  induction 1 as [ | c s Hc Hs IH]; simpl; congruence.
Qed.

Lemma map_map_fixed (f : codeUnit -> codeUnit) ws :
  Forall (Forall (fun c => f c = c)) ws -> List.map (List.map f) ws = ws.
Proof.
  induction 1 as [ | w ws Hw Hws IH]; simpl; [reflexivity | ].
  now rewrite map_fixed, IH.
Qed.

End MoreStrings.

(* ================================================================== *)
(** ** Words *)
(* ================================================================== *)

Section Words.

Local Open Scope N_scope.

Lemma word_weaken (p q : codeUnit -> bool) w :
  (forall c, p c = true -> q c = true) -> word p w -> word q w.
Proof.
  intros Hpq [Hne Hw]. split; [exact Hne | ].
  eapply Forall_impl; [ | exact Hw]. auto.
Qed.

Lemma words_weaken (p q : codeUnit -> bool) ws :
  (forall c, p c = true -> q c = true) ->
  Forall (word p) ws -> Forall (word q) ws.
Proof.
  intros Hpq. apply Forall_impl. intros w. now apply word_weaken.
Qed.

Lemma isAlnum_notWs c : isAlnum c = true -> notWs c = true.
Proof. intros H. unfold notWs. now rewrite isAlnum_not_ws. Qed.

Lemma isLowerAlnum_notWs c : isLowerAlnum c = true -> notWs c = true.
Proof. intros H. now apply isAlnum_notWs, isLowerAlnum_isAlnum. Qed.

Lemma notWs_false c : notWs c = true -> isWhiteSpace c = false.
Proof. unfold notWs. now destruct (isWhiteSpace c). Qed.

(** The pieces that [split] cuts a string of [SP] and code units of class
    [p] into are of class [p]. *)
Lemma split_class (p : codeUnit -> bool) s :
  Forall (fun c => c = SP \/ p c = true) s ->
  Forall (Forall (fun c => p c = true)) (split SP s).
Proof.
  intros H.
  pose proof (Forall_split _ SP _ H) as H1.
  pose proof (split_no_sep SP s) as H2.
  rewrite Forall_forall in *. intros w Hw.
  specialize (H1 w Hw). specialize (H2 w Hw).
  rewrite Forall_forall in *. intros c Hc.
  destruct (H1 c Hc) as [E | E]; [ | exact E].
  exfalso. now apply (H2 c Hc).
Qed.

(** The words that [split] and [filter] extract from such a string. *)
Lemma tokens_words (p : codeUnit -> bool) s :
  Forall (fun c => c = SP \/ p c = true) s ->
  Forall (word p) (filter nonEmpty (split SP s)).
Proof.
  intros H.
  pose proof (Forall_filter nonEmpty (split_class p s H)) as H1.
  pose proof (filter_nonEmpty_spec (split SP s)) as H2.
  rewrite Forall_forall in *. intros w Hw. split; auto.
Qed.

Lemma map_word (f : codeUnit -> codeUnit) (p q : codeUnit -> bool) w :
  (forall c, p c = true -> q (f c) = true) ->
  word p w -> word q (List.map f w).
Proof.
  intros Hf [Hne Hw]. split.
  - destruct w; [contradiction | discriminate].
  - apply Forall_map. eapply Forall_impl; [ | exact Hw]. auto.
Qed.

(** *** [trim] on a string that begins and ends with a word *)

Lemma trimEnd_word w : Forall (fun c => notWs c = true) w -> trimEnd w = w.
Proof.
  induction 1 as [ | c w Hc Hw IH]; simpl; [reflexivity | ].
  rewrite IH. destruct w; [ | reflexivity].
  now rewrite (notWs_false _ Hc).
Qed.

Lemma trimEnd_app a s : trimEnd s = s -> s <> [] -> trimEnd (a ++ s) = a ++ s.
Proof.
  intros Hs Hne. induction a as [ | c a IH]; simpl; [exact Hs | ].
  rewrite IH. destruct (a ++ s) eqn:E; [ | reflexivity].
  apply app_eq_nil in E. now destruct E.
Qed.

Lemma trimEnd_idem s : trimEnd (trimEnd s) = trimEnd s.
Proof.
  induction s as [ | c s IH]; simpl; [reflexivity | ].
  destruct (trimEnd s) as [ | d r] eqn:E.
  - destruct (isWhiteSpace c) eqn:Ec; simpl; [reflexivity | now rewrite Ec].
  - simpl in *. now rewrite IH.
Qed.

Lemma join_not_nil sep w ws : w <> [] -> join sep (w :: ws) <> [].
Proof.
  intros Hw. simpl. destruct ws.
  - exact Hw.
  - intros E. apply app_eq_nil in E. now destruct E.
Qed.

Lemma trimEnd_join sep ws :
  Forall (word notWs) ws -> trimEnd (join sep ws) = join sep ws.
Proof.
  induction 1 as [ | w ws [Hne Hw] Hws IH]; [reflexivity | ].
  destruct ws as [ | w' ws'].
  - simpl. now apply trimEnd_word.
  - change (join sep (w :: w' :: ws')) with (w ++ sep ++ join sep (w' :: ws')).
    inversion Hws as [ | ? ? [Hne' _] _]; subst.
    pose proof (join_not_nil sep w' ws' Hne') as HJ.
    rewrite trimEnd_app; [reflexivity | | ].
    + apply trimEnd_app; assumption.
    + intros E. apply app_eq_nil in E. now destruct E.
Qed.

Lemma trimStart_join sep ws :
  Forall (word notWs) ws -> trimStart (join sep ws) = join sep ws.
Proof.
  intros H. destruct H as [ | w ws [Hne Hw] Hws]; [reflexivity | ].
  destruct w as [ | c w]; [contradiction | ].
  inversion Hw as [ | ? ? Hc _]; subst.
  unfold trimStart. destruct ws; simpl; now rewrite (notWs_false _ Hc).
Qed.

Lemma trim_join sep ws :
  Forall (word notWs) ws -> trim (join sep ws) = join sep ws.
Proof.
  intros H. unfold trim. rewrite trimStart_join by assumption.
  now apply trimEnd_join.
Qed.

(** *** The replacements on a string of words *)

Lemma collapseWs_word_app b w s :
  word notWs w -> collapseWs b (w ++ s) = w ++ collapseWs false s.
Proof.
  intros [Hne Hw]. revert b.
  induction Hw as [ | c w Hc Hw IH]; intros b; [contradiction | ].
  simpl. rewrite (notWs_false _ Hc). f_equal.
  destruct w as [ | d w]; [reflexivity | ].
  apply IH. discriminate.
Qed.

Lemma collapseWs_join b ws :
  Forall (word notWs) ws -> collapseWs b (join [SP] ws) = join [SP] ws.
Proof.
  intros H. revert b.
  induction H as [ | w ws Hw Hws IH]; intros b; [reflexivity | ].
  destruct ws as [ | w' ws'].
  - simpl. rewrite <- (app_nil_r w) at 1.
    rewrite collapseWs_word_app by assumption. simpl. apply app_nil_r.
  - change (join [SP] (w :: w' :: ws')) with (w ++ SP :: join [SP] (w' :: ws')).
    rewrite collapseWs_word_app by assumption.
    cbn [collapseWs]. rewrite isWhiteSpace_SP. now rewrite IH.
Qed.

Lemma replace_lowerUpper_id s :
  Forall (fun c => isUpper c = false) s -> replace_lowerUpper s = s.
Proof.
  unfold jsstring, codeUnit in s.
  induction s as [ | a | a b s IH1 IH2] using pairs_ind; intros H;
    [reflexivity | reflexivity | ].
  change (replace_lowerUpper (a :: b :: s))
    with (if isLower a && isUpper b
          then a :: SP :: b :: replace_lowerUpper s
          else a :: replace_lowerUpper (b :: s)).
  inversion H as [ | ? ? Ha Hbs]; subst.
  inversion Hbs as [ | ? ? Hb Hs]; subst.
  rewrite Hb, andb_false_r. now rewrite IH2.
Qed.

Lemma replace_notAlnumWs_join c ws :
  isAlnum c = false -> isWhiteSpace c = false ->
  Forall (word isAlnum) ws ->
  replace_notAlnumWs (join [c] ws) = join [SP] ws.
Proof.
  intros Hc1 Hc2 H. unfold replace_notAlnumWs.
  rewrite map_join. cbn [List.map]. rewrite Hc1, Hc2. cbn [orb].
  f_equal. apply map_map_fixed.
  eapply Forall_impl; [ | exact H]. intros w [_ Hw].
  eapply Forall_impl; [ | exact Hw]. cbv beta. intros d ->. reflexivity.
Qed.

Lemma toLowerCase_join ws :
  Forall (word isLowerAlnum) ws ->
  toLowerCase (join [SP] ws) = join [SP] ws.
Proof.
  intros H. unfold toLowerCase. rewrite map_join. cbn [List.map].
  rewrite lowerUnit_SP. f_equal. apply map_map_fixed.
  eapply Forall_impl; [ | exact H]. intros w [_ Hw].
  eapply Forall_impl; [ | exact Hw]. cbv beta. intros d Hd.
  now apply lowerUnit_fixed, isLowerAlnum_not_upper.
Qed.

Lemma toLowerCase_words ws :
  Forall (word isLowerAlnum) ws -> List.map toLowerCase ws = ws.
Proof.
  intros H. apply map_map_fixed.
  eapply Forall_impl; [ | exact H]. intros w [_ Hw].
  eapply Forall_impl; [ | exact Hw]. cbv beta. intros d Hd.
  now apply lowerUnit_fixed, isLowerAlnum_not_upper.
Qed.

Lemma split_join_words (p : codeUnit -> bool) ws :
  (forall c, p c = true -> notWs c = true) ->
  ws <> [] -> Forall (word p) ws ->
  filter nonEmpty (split SP (join [SP] ws)) = ws.
Proof.
  intros Hp Hne H. rewrite split_join.
  - apply filter_nonEmpty_id. eapply Forall_impl; [ | exact H].
    now intros w [Hw _].
  - exact Hne.
  - eapply Forall_impl; [ | exact H]. intros w [_ Hw].
    eapply Forall_impl; [ | exact Hw]. cbv beta. intros c Hc.
    apply not_ws_not_SP, notWs_false, Hp, Hc.
Qed.

End Words.

(* ================================================================== *)
(** ** The normalized string *)
(* ================================================================== *)

Section Normalized.

Local Open Scope N_scope.

Lemma replace_notAlnumWs_class s :
  Forall (fun c => isWhiteSpace c = true \/ isAlnum c = true)
         (replace_notAlnumWs s).
Proof.
  unfold replace_notAlnumWs. apply Forall_map, Forall_forall. intros c _.
  destruct (isAlnum c) eqn:E1; [now right | ].
  destruct (isWhiteSpace c) eqn:E2; [now left | ].
  left. reflexivity.
Qed.

Lemma replace_notAlphaWs_class s :
  Forall (fun c => isWhiteSpace c = true \/ isAlpha c = true)
         (replace_notAlphaWs s).
Proof.
  unfold replace_notAlphaWs. apply Forall_map, Forall_forall. intros c _.
  destruct (isAlpha c) eqn:E1; [now right | ].
  destruct (isWhiteSpace c) eqn:E2; [now left | ].
  left. reflexivity.
Qed.

(** After the two replacements and [trim], only letters, digits and single
    spaces are left: the argument of every [toLowerCase] outside
    [toCamelCase] is ASCII. *)
Lemma normalized_class s :
  Forall (fun c => c = SP \/ isAlnum c = true)
         (trim (replace_wsRuns (replace_notAlnumWs s))).
Proof.
  apply Forall_trim, Forall_collapseWs, replace_notAlnumWs_class.
Qed.

Lemma normalized_kebab_class s :
  Forall (fun c => c = SP \/ isAlnum c = true)
         (trim (replace_wsRuns (replace_lowerUpper (replace_notAlnumWs s)))).
Proof.
  apply Forall_trim, Forall_collapseWs, Forall_replace_lowerUpper.
  - now left.
  - apply replace_notAlnumWs_class.
Qed.

Lemma normalized_alpha_class s :
  Forall (fun c => c = SP \/ isAlpha c = true)
         (trim (replace_wsRuns (replace_notAlphaWs s))).
Proof.
  apply Forall_trim, Forall_collapseWs, replace_notAlphaWs_class.
Qed.

Lemma toLowerCase_class (p q : codeUnit -> bool) s :
  (forall c, p c = true -> q (lowerUnit c) = true) ->
  Forall (fun c => c = SP \/ p c = true) s ->
  Forall (fun c => c = SP \/ q c = true) (toLowerCase s).
Proof.
  intros Hpq H. unfold toLowerCase. apply Forall_map.
  eapply Forall_impl; [ | exact H]. cbv beta.
  intros c [-> | Hc]; [now left | right; auto].
Qed.

(** *** Single spacing *)

Lemma singleSpaced_cons_other b c s :
  c <> SP -> singleSpaced b (c :: s) = singleSpaced false s.
Proof.
  intros Hc. simpl. destruct (N.eqb_spec c SP); [contradiction | reflexivity].
Qed.

Lemma collapseWs_singleSpaced b s : singleSpaced b (collapseWs b s) = true.
Proof.
  revert b. induction s as [ | c s IH]; intros b; [reflexivity | ].
  simpl. destruct (isWhiteSpace c) eqn:E.
  - destruct b; [apply IH | ]. simpl. apply IH.
  - rewrite singleSpaced_cons_other by now apply not_ws_not_SP. apply IH.
Qed.

Lemma collapseWs_only_SP b s :
  Forall (fun c => c = SP \/ isWhiteSpace c = false) (collapseWs b s).
Proof.
  apply Forall_collapseWs, Forall_forall. intros c _.
  destruct (isWhiteSpace c); auto.
Qed.

Lemma trimStart_singleSpaced b s :
  Forall (fun c => c = SP \/ isWhiteSpace c = false) s ->
  singleSpaced b s = true -> singleSpaced true (trimStart s) = true.
Proof.
  intros H. revert b. unfold trimStart.
  induction H as [ | c s Hc Hs IH]; intros b Hb; [reflexivity | ].
  simpl. destruct (isWhiteSpace c) eqn:E.
  - destruct Hc as [-> | Hc]; [ | congruence].
    simpl in Hb. apply andb_true_iff in Hb. apply (IH true), Hb.
  - rewrite singleSpaced_cons_other in * by now apply not_ws_not_SP.
    exact Hb.
Qed.

Lemma trimEnd_singleSpaced b s :
  singleSpaced b s = true -> singleSpaced b (trimEnd s) = true.
Proof.
  revert b. induction s as [ | c s IH]; intros b Hb; [reflexivity | ].
  simpl. destruct (trimEnd s) as [ | d r] eqn:E.
  - destruct (isWhiteSpace c) eqn:Ec; [reflexivity | ].
    now rewrite singleSpaced_cons_other by now apply not_ws_not_SP.
  - simpl in Hb |- *. destruct (c =? SP).
    + apply andb_true_iff in Hb. destruct Hb as [Hb1 Hb2].
      rewrite Hb1. apply (IH true Hb2).
    + apply (IH false Hb).
Qed.

Lemma trimEnd_cons_inv c s : trimEnd (c :: s) = c :: s -> trimEnd s = s.
Proof.
  simpl. destruct (trimEnd s) as [ | d r] eqn:E.
  - destruct (isWhiteSpace c); [discriminate | ]. now intros [= <-].
  - now intros [= <-].
Qed.

(** A trimmed, single-spaced string splits into non-empty words only. *)
Lemma split_singleSpaced s : forall b,
  singleSpaced b s = true -> trimEnd s = s ->
  match split SP s with
  | w :: ws => (b = true -> s <> [] -> w <> []) /\ Forall (fun w => w <> []) ws
  | [] => False
  end.
Proof.
  induction s as [ | c s IH]; intros b Hb Ht.
  - simpl. split; [intros _ H; now elim H | constructor].
  - pose proof (trimEnd_cons_inv _ _ Ht) as Ht'.
    simpl in Hb |- *. destruct (N.eqb_spec c SP) as [E | E].
    + subst c. apply andb_true_iff in Hb. destruct Hb as [Hb1 Hb2].
      split; [intros ->; discriminate | ].
      specialize (IH true Hb2 Ht').
      destruct (split SP s) as [ | w ws]; [contradiction | ].
      destruct IH as [IH1 IH2]. constructor; [ | exact IH2].
      apply IH1; [reflexivity | ]. intros ->. discriminate.
    + specialize (IH false Hb Ht').
      destruct (split SP s) as [ | w ws]; [contradiction | ].
      destruct IH as [_ IH2]. split; [discriminate | exact IH2].
Qed.

(** The normalized string is its words joined by single spaces. *)
Lemma join_tokens s :
  let t := trim (replace_wsRuns s) in
  join [SP] (filter nonEmpty (split SP t)) = t.
Proof.
  intros t.
  assert (H1 : singleSpaced true t = true).
  { apply trimEnd_singleSpaced.
    apply trimStart_singleSpaced with (b := false).
    - apply collapseWs_only_SP.
    - apply collapseWs_singleSpaced. }
  assert (H2 : trimEnd t = t) by apply trimEnd_idem.
  destruct t as [ | c t'] eqn:E; [reflexivity | ]. rewrite <- E in *.
  pose proof (split_singleSpaced t true H1 H2) as H.
  pose proof (join_split SP t) as J.
  destruct (split SP t) as [ | w ws]; [contradiction | ].
  destruct H as [Hw Hws].
  rewrite filter_nonEmpty_id; [exact J | ].
  constructor; [ | exact Hws].
  apply Hw; [reflexivity | ]. rewrite E. discriminate.
Qed.

End Normalized.

(* ================================================================== *)
(** ** Type validation *)
(* ================================================================== *)

(** C1.  A value that is not a string makes [normalizeString], [toKebabCase],
    [robustCamelCase] and [toDotCase] throw the [TypeError] whose message
    ends in the runtime type name of the value, ["null"] for [null]; on a
    string none of the four throws. *)
Theorem invalid_input_type_raised :
  (forall v, is_string v = false ->
     let e := TypeError (js "Input must be a string, received "
                         ++ runtimeTypeName v) in
     normalizeString v = Throw e /\ toKebabCase v = Throw e /\
     robustCamelCase v = Throw e /\ toDotCase v = Throw e) /\
  (forall s,
     (exists words, normalizeString (JsString s) = Normal words) /\
     (exists r, toKebabCase (JsString s) = Normal r) /\
     (exists r, robustCamelCase (JsString s) = Normal r) /\
     (exists r, toDotCase (JsString s) = Normal r)).
Proof.
  split.
  - intros v Hv. destruct v; try discriminate Hv; cbv zeta; repeat split.
  - intros s. unfold normalizeString, toKebabCase, robustCamelCase, toDotCase.
    cbv zeta. destruct (Nat.eqb (List.length (trim s)) 0).
    + repeat split; eexists; reflexivity.
    + repeat split; try (eexists; reflexivity).
      * destruct (Nat.eqb _ 0); eexists; reflexivity.
      * destruct (Nat.eqb _ 0); eexists; reflexivity.
Qed.

Lemma invalid_input_type_raised_witness :
  is_string (JsNumber 42) = false /\
  normalizeString (JsNumber 42)
  = Throw (TypeError (js "Input must be a string, received number")) /\
  is_string JsNull = false /\
  toKebabCase JsNull
  = Throw (TypeError (js "Input must be a string, received null")).
Proof.
  split; [reflexivity | ]. split.
  - exact (proj1 (proj1 invalid_input_type_raised (JsNumber 42) eq_refl)).
  - split; [reflexivity | ].
    exact (proj1 (proj2 (proj1 invalid_input_type_raised JsNull eq_refl))).
Defined.

(** C2, as the sources have it.  For a value that is not a string,
    [robustCamelCase], [toKebabCase] and [toDotCase] throw InvalidInputType;
    [camelCase] and [toSnakeCase] return the string
    ["Error: Input must be a string, but received "] followed by [typeof] of
    the value; [toCamelCase], which checks nothing, never throws
    InvalidInputType: on a value without a method [toLowerCase] it fails
    with the [TypeError] the engine raises, and on a String object it
    returns what it returns on the string inside. *)
Theorem non_string_outcomes : forall v,
  is_string v = false ->
  robustCamelCase v = Throw (InvalidInputType v) /\
  toKebabCase v = Throw (InvalidInputType v) /\
  toDotCase v = Throw (InvalidInputType v) /\
  RefinedPrompt.camelCase v
  = Normal (js "Error: Input must be a string, but received " ++ typeof v) /\
  toSnakeCase v
  = Normal (js "Error: Input must be a string, but received " ++ typeof v) /\
  toCamelCase v <> Throw (InvalidInputType v) /\
  (has_toLowerCase v = false ->
   exists cause, toCamelCase v = Throw (EngineTypeError cause)) /\
  (forall s, v = JsStringObject s -> toCamelCase v = toCamelCase (JsString s)).
Proof.
  intros v Hv.
  destruct v; try discriminate Hv;
    (do 5 (split; [reflexivity | ]);
     split; [discriminate | split];
     [ intros E; first [discriminate E | eexists; reflexivity]
     | intros s' E; first [discriminate E | injection E as ->; reflexivity] ]).
Qed.

Lemma non_string_outcomes_witness :
  is_string JsNull = false /\
  robustCamelCase JsNull
  = Throw (TypeError (js "Input must be a string, received null")) /\
  RefinedPrompt.camelCase JsNull
  = Normal (js "Error: Input must be a string, but received object") /\
  has_toLowerCase JsNull = false /\
  toCamelCase JsNull = Throw (EngineTypeError NullishReceiver) /\
  is_string (JsStringObject (js "user_id")) = false /\
  toKebabCase (JsStringObject (js "user_id"))
  = Throw (TypeError (js "Input must be a string, received object")) /\
  toCamelCase (JsStringObject (js "user_id")) = Normal (js "userId").
Proof.
  pose proof (non_string_outcomes JsNull eq_refl) as H.
  pose proof (non_string_outcomes (JsStringObject (js "user_id")) eq_refl)
    as H'.
  split; [reflexivity | ].
  split; [exact (proj1 H) | ].
  split; [exact (proj1 (proj2 (proj2 (proj2 H)))) | ].
  split; [reflexivity | ].
  split.
  - destruct (proj1 (proj2 (proj2 (proj2 (proj2 (proj2 (proj2 H))))))
                eq_refl) as [cause E].
    rewrite E. f_equal. f_equal.
    injection E as E. now symmetry.
  - split; [reflexivity | ].
    split; [exact (proj1 (proj2 H')) | ].
    exact (proj2 (proj2 (proj2 (proj2 (proj2 (proj2 (proj2 H'))))))
             (js "user_id") eq_refl).
Defined.

(** C2 fails as stated: [camelCase(42)] and [toSnakeCase(42)] return a string
    that describes the error, they do not throw. *)
Lemma sentinel_returned_counterexample :
  is_string (JsNumber 42) = false /\
  RefinedPrompt.camelCase (JsNumber 42)
  = Normal (js "Error: Input must be a string, but received number") /\
  toSnakeCase (JsNumber 42)
  = Normal (js "Error: Input must be a string, but received number") /\
  ~ (forall v, is_string v = false ->
       RefinedPrompt.camelCase v = Throw (InvalidInputType v) /\
       toSnakeCase v = Throw (InvalidInputType v) /\
       toCamelCase v = Throw (InvalidInputType v) /\
       robustCamelCase v = Throw (InvalidInputType v) /\
       toKebabCase v = Throw (InvalidInputType v) /\
       toDotCase v = Throw (InvalidInputType v)).
Proof.
  repeat split. intros H.
  destruct (H (JsNumber 42) eq_refl) as [H1 _]. discriminate H1.
Qed.

(* ================================================================== *)
(** ** The examples of the documentation *)
(* ================================================================== *)



(** What [toSnakeCase] does on the examples of its own documentation, which
    promises ['hello_world'] and ['user_id']: it has no step for the case
    boundary that [toKebabCase] has. *)
Lemma toSnakeCase_camel_input :
  toSnakeCase (JsString (js "helloWorld")) = Normal (js "helloworld") /\
  toSnakeCase (JsString (js "userId")) = Normal (js "userid") /\
  toSnakeCase (JsString (js "firstName")) = Normal (js "firstname").
Proof. repeat split. Qed.



(** [robustCamelCase] on the example of the prompt above it, which expects
    ["123testString"]. *)
Lemma robustCamelCase_digit_led :
  robustCamelCase (JsString (js "123 test string"))
  = Normal (js "123TestString").
Proof. reflexivity. Qed.

(** C5, as the sources have it.  [toCamelCase] returns ["userId"] for the
    underscore, the hyphen and the space, and leaves ["user.id"] as it is;
    [robustCamelCase], [camelCase] and [chainCamelCase] return ["userId"] for
    the four styles. *)
Theorem separator_styles :
  toCamelCase (JsString (js "user_id")) = Normal (js "userId") /\
  toCamelCase (JsString (js "user-id")) = Normal (js "userId") /\
  toCamelCase (JsString (js "user id")) = Normal (js "userId") /\
  toCamelCase (JsString (js "user.id")) = Normal (js "user.id") /\
  Forall (fun f =>
            Forall (fun s => f (JsString s) = Normal (js "userId"))
                   [js "user_id"; js "user-id"; js "user.id"; js "user id"])
         [robustCamelCase; RefinedPrompt.camelCase; chainCamelCase].
Proof. repeat split; repeat constructor. Qed.

(** C5 fails as stated: the dot is no separator for [toCamelCase]. *)
Lemma dot_separator_counterexample :
  toCamelCase (JsString (js "user.id")) = Normal (js "user.id") /\
  toCamelCase (JsString (js "user.id")) <> Normal (js "userId").
Proof. split; [reflexivity | discriminate]. Qed.

(** A string of white space is trimmed to nothing. *)
Lemma trim_all_ws s : Forall (fun c => isWhiteSpace c = true) s -> trim s = [].
Proof.
  intros H. unfold trim, trimStart.
  induction H as [ | c s Hc Hs IH]; [reflexivity | ].
  simpl. now rewrite Hc.
Qed.

(** A string without a letter or a digit has no token. *)
Lemma no_alnum_no_tokens s :
  Forall (fun c => isAlnum c = false) s ->
  normalizeString (JsString s) = Normal [].
Proof.
  intros H. unfold normalizeString. cbv zeta.
  destruct (Nat.eqb (List.length (trim s)) 0); [reflexivity | ].
  rewrite trim_all_ws; [reflexivity | ].
  assert (Hws : Forall (fun c => c = SP \/ False)
                       (replace_wsRuns (replace_notAlnumWs (trim s)))).
  { apply Forall_collapseWs. unfold replace_notAlnumWs.
    apply Forall_map. apply (Forall_trim _ _) in H.
    eapply Forall_impl; [ | exact H]. cbv beta. intros c Hc. left.
    rewrite Hc. simpl. now destruct (isWhiteSpace c) eqn:E. }
  eapply Forall_impl; [ | exact Hws]. cbv beta. intros c [-> | []].
  reflexivity.
Qed.

(** C6.  [""], ["   "] and ["!!!"] tokenize to the empty sequence, as every
    string without a letter or a digit does, and the five renderers return
    [""] on the empty sequence; so do the converters that tokenize for
    themselves, on the three inputs. *)
Theorem empty_inputs :
  Forall (fun s =>
            normalizeString (JsString s) = Normal [] /\
            Forall (fun f => f (JsString s) = Normal [])
                   [chainCamelCase; chainPascalCase; chainSnakeCase;
                    chainKebabCase; chainDotCase; toKebabCase;
                    robustCamelCase; toDotCase; toSnakeCase;
                    RefinedPrompt.camelCase])
         [js ""; js "   "; js "!!!"] /\
  (forall s, Forall (fun c => isAlnum c = false) s ->
             normalizeString (JsString s) = Normal []) /\
  renderCamel [] = [] /\ renderPascal [] = [] /\ renderSnake [] = [] /\
  renderKebab [] = [] /\ renderDot [] = [].
Proof.
  split; [repeat constructor | ].
  split; [exact no_alnum_no_tokens | repeat split].
Qed.

Lemma empty_inputs_witness :
  Forall (fun c => isAlnum c = false) [9; 45; 95; 46; 33; 8232; 32]%N /\
  normalizeString (JsString [9; 45; 95; 46; 33; 8232; 32]%N) = Normal [].
Proof.
  assert (H : Forall (fun c => isAlnum c = false)
                     [9; 45; 95; 46; 33; 8232; 32]%N)
    by (repeat constructor).
  split; [exact H | exact (proj1 (proj2 empty_inputs) _ H)].
Defined.

(** The table of few_shot_prompt.js holds of [camelCase], [toSnakeCase] and
    [chainPascalCase]. *)
Lemma few_shot_examples_hold :
  Forall (fun e =>
            RefinedPrompt.camelCase (JsString (FewShotPrompt.input e))
            = Normal (FewShotPrompt.camelCase e) /\
            toSnakeCase (JsString (FewShotPrompt.input e))
            = Normal (FewShotPrompt.snake_case e) /\
            chainPascalCase (JsString (FewShotPrompt.input e))
            = Normal (FewShotPrompt.pascalCase e))
         FewShotPrompt.examples.
Proof. repeat constructor. Qed.

(** C7, as the sources have it.  On ["Hello@World#Test!"] the snake, Pascal,
    kebab and dot converters return what the table of examples gives, and so
    do [robustCamelCase], [camelCase] and [chainCamelCase]; [toCamelCase]
    only lowers the input, which holds none of its separators. *)
Theorem special_characters_example :
  let s := JsString (js "Hello@World#Test!") in
  toCamelCase s = Normal (js "hello@world#test!") /\
  toSnakeCase s = Normal (js "hello_world_test") /\
  chainPascalCase s = Normal (js "HelloWorldTest") /\
  toKebabCase s = Normal (js "hello-world-test") /\
  toDotCase s = Normal (js "hello.world.test") /\
  robustCamelCase s = Normal (js "helloWorldTest") /\
  RefinedPrompt.camelCase s = Normal (js "helloWorldTest") /\
  chainCamelCase s = Normal (js "helloWorldTest").
Proof. repeat split. Qed.

(** C7 fails as stated: [toCamelCase] keeps the special characters. *)
Lemma special_characters_counterexample :
  toCamelCase (JsString (js "Hello@World#Test!"))
  = Normal (js "hello@world#test!") /\
  toCamelCase (JsString (js "Hello@World#Test!"))
  <> Normal (js "helloWorldTest").
Proof. split; [reflexivity | discriminate]. Qed.

(* ================================================================== *)
(** ** The token sequence *)
(* ================================================================== *)

Lemma trim_empty s : Nat.eqb (List.length (trim s)) 0 = true -> trim s = [].
Proof.
  destruct (trim s); [reflexivity | discriminate].
Qed.

(** C9.  On a string [normalizeString] returns tokens that are non-empty and
    made of ASCII letters and digits only (so of no white space), and the
    tokens joined by single spaces are the normalized input: they come in
    the order in which they occur there. *)
Theorem token_sequence_invariant : forall s,
  exists tokens,
    normalizeString (JsString s) = Normal tokens /\
    Forall (fun t => t <> [] /\
                     Forall (fun c => isAlnum c = true /\
                                      isWhiteSpace c = false) t) tokens /\
    join [SP] tokens = normalized s.
Proof.
  intros s. unfold normalizeString, normalized. cbv zeta.
  destruct (Nat.eqb (List.length (trim s)) 0) eqn:E.
  - exists []. rewrite (trim_empty s E). repeat split. constructor.
  - eexists. split; [reflexivity | ]. split.
    + pose proof (tokens_words isAlnum _ (normalized_class (trim s))) as H.
      eapply Forall_impl; [ | exact H]. intros t [Hne Ht].
      split; [exact Hne | ].
      eapply Forall_impl; [ | exact Ht]. cbv beta. intros c Hc.
      split; [exact Hc | now apply isAlnum_not_ws].
    + apply join_tokens.
Qed.

(* ================================================================== *)
(** ** [camelCase] and the digits *)
(* ================================================================== *)

Lemma Forall_mapi_from {A B} (R : A -> Prop) (R' : B -> Prop)
      (f : A -> nat -> B) (a : list A) :
  (forall x i, R x -> R' (f x i)) ->
  Forall R a -> forall i, Forall R' (mapi_from i f a).
Proof.
  intros Hf. induction 1 as [ | x a Hx Ha IH]; intros i; simpl;
    constructor; auto.
Qed.

Lemma capitalized_alpha w :
  Forall (fun c => isLower c = true) w ->
  Forall (fun c => isAlpha c = true) (toUpperCase (charAt 0 w) ++ slice 1 w).
Proof.
  intros H. destruct H as [ | c w Hc Hw]; [constructor | ].
  simpl. constructor; [now apply upperUnit_lower | ].
  eapply Forall_impl; [ | exact Hw]. apply isLower_isAlpha.
Qed.

(** C10.  The string that [camelCase] returns for a string holds ASCII
    letters only, hence no digit. *)
Theorem camelCase_drops_digits : forall s,
  exists r,
    RefinedPrompt.camelCase (JsString s) = Normal r /\
    Forall (fun c => isAlpha c = true) r /\
    Forall (fun c => isDigit c = false) r.
Proof.
  intros s.
  assert (H : exists r, RefinedPrompt.camelCase (JsString s) = Normal r /\
                        Forall (fun c => isAlpha c = true) r).
  { unfold RefinedPrompt.camelCase. cbv zeta.
    destruct (Nat.eqb (List.length (trim s)) 0).
    - exists []. split; [reflexivity | constructor].
    - eexists. split; [reflexivity | ].
      apply Forall_join; [constructor | ].
      apply Forall_filter. unfold mapi.
      apply Forall_mapi_from with (R := Forall (fun c => isLower c = true)).
      + intros w i Hw. destruct (Nat.eqb (List.length w) 0); [constructor | ].
        destruct (Nat.eqb i 0).
        * eapply Forall_impl; [ | exact Hw]. apply isLower_isAlpha.
        * now apply capitalized_alpha.
      + apply split_class.
        apply toLowerCase_class with (p := isAlpha);
          [apply lowerUnit_alpha | apply normalized_alpha_class]. }
  destruct H as [r [H1 H2]]. exists r. repeat split; [exact H1 | exact H2 | ].
  eapply Forall_impl; [ | exact H2]. apply isAlpha_not_digit.
Qed.

(* ================================================================== *)
(** ** Rendering twice *)
(* ================================================================== *)

Section Rerender.

(** [c] is the code unit a renderer joins with, [ws] the lower-case words it
    joined. *)
Variable c : codeUnit.
Hypothesis c_not_alnum : isAlnum c = false.
Hypothesis c_not_ws : isWhiteSpace c = false.

Lemma rendered_trim ws :
  Forall (word isLowerAlnum) ws -> trim (join [c] ws) = join [c] ws.
Proof.
  intros H. apply trim_join. eapply words_weaken; [ | exact H].
  apply isLowerAlnum_notWs.
Qed.

Lemma rendered_not_empty ws :
  Forall (word isLowerAlnum) ws -> ws <> [] ->
  Nat.eqb (List.length (join [c] ws)) 0 = false.
Proof.
  intros H Hne. destruct H as [ | w ws' [Hw _] _]; [congruence | ].
  pose proof (join_not_nil [c] w ws' Hw) as HJ.
  destruct (join [c] (w :: ws')) eqn:E; [now elim HJ | reflexivity].
Qed.

(** Normalizing a rendered string gives its words back, joined by [SP]. *)
Lemma rendered_normalized ws :
  Forall (word isLowerAlnum) ws ->
  trim (replace_wsRuns (replace_notAlnumWs (join [c] ws))) = join [SP] ws.
Proof.
  intros H. rewrite replace_notAlnumWs_join; try assumption.
  - unfold replace_wsRuns. rewrite collapseWs_join; [apply trim_join | ];
      (eapply words_weaken; [ | exact H]; apply isLowerAlnum_notWs).
  - eapply words_weaken; [ | exact H]. apply isLowerAlnum_isAlnum.
Qed.

Lemma rendered_normalized_kebab ws :
  Forall (word isLowerAlnum) ws ->
  trim (replace_wsRuns (replace_lowerUpper (replace_notAlnumWs (join [c] ws))))
  = join [SP] ws.
Proof.
  intros H. rewrite <- (rendered_normalized ws H). do 2 f_equal.
  apply replace_lowerUpper_id.
  rewrite replace_notAlnumWs_join; try assumption.
  - apply Forall_join; [now constructor | ].
    eapply Forall_impl; [ | exact H]. intros w [_ Hw].
    eapply Forall_impl; [ | exact Hw]. apply isLowerAlnum_not_upper.
  - eapply words_weaken; [ | exact H]. apply isLowerAlnum_isAlnum.
Qed.

End Rerender.

Lemma rendered_tokens ws :
  Forall (word isLowerAlnum) ws -> ws <> [] ->
  filter nonEmpty (split SP (join [SP] ws)) = ws.
Proof.
  intros H Hne. apply split_join_words with (p := isLowerAlnum);
    [apply isLowerAlnum_notWs | assumption | assumption].
Qed.

(** The words of a first pass that lowers before it splits. *)
Lemma lowered_tokens s :
  Forall (word isLowerAlnum)
    (filter nonEmpty
       (split SP (toLowerCase (trim (replace_wsRuns (replace_notAlnumWs s)))))).
Proof.
  apply tokens_words, toLowerCase_class with (p := isAlnum);
    [apply lowerUnit_alnum | apply normalized_class].
Qed.

(** The words of [toKebabCase], which lowers after it splits. *)
Lemma kebab_tokens s :
  Forall (word isLowerAlnum)
    (List.map toLowerCase
       (filter nonEmpty
          (split SP (trim (replace_wsRuns
                             (replace_lowerUpper (replace_notAlnumWs s))))))).
Proof.
  apply Forall_map.
  pose proof (tokens_words isAlnum _ (normalized_kebab_class s)) as H.
  eapply Forall_impl; [ | exact H]. intros w Hw.
  apply map_word with (p := isAlnum); [apply lowerUnit_alnum | exact Hw].
Qed.

(** A converter that lowers before it splits returns a rendered string
    unchanged; [toSnakeCase] and [toDotCase] are the instances. *)
Lemma rerender_lowered c ws :
  isAlnum c = false -> isWhiteSpace c = false ->
  Forall (word isLowerAlnum) ws ->
  let o := join [c] ws in
  (if Nat.eqb (List.length (trim o)) 0 then Normal []
   else Normal (join [c]
                  (filter nonEmpty
                     (split SP (toLowerCase
                                  (trim (replace_wsRuns
                                           (replace_notAlnumWs (trim o)))))))))
  = Normal o.
Proof.
  intros Hc1 Hc2 H o. subst o.
  destruct ws as [ | w ws']; [reflexivity | ].
  assert (Hne : w :: ws' <> []) by discriminate.
  rewrite (rendered_trim c _ H), (rendered_not_empty c _ H Hne).
  rewrite (rendered_normalized c Hc1 Hc2 _ H).
  rewrite (toLowerCase_join _ H), (rendered_tokens _ H Hne). reflexivity.
Qed.

(** The same for a converter that inserts the case boundaries and lowers
    after it splits, as [toKebabCase] does. *)
Lemma rerender_kebab c ws :
  isAlnum c = false -> isWhiteSpace c = false ->
  Forall (word isLowerAlnum) ws ->
  let o := join [c] ws in
  (if Nat.eqb (List.length (trim o)) 0 then Normal []
   else
     let words :=
       filter nonEmpty
         (split SP (trim (replace_wsRuns
                            (replace_lowerUpper
                               (replace_notAlnumWs (trim o)))))) in
     if Nat.eqb (List.length words) 0 then Normal []
     else Normal (join [c] (List.map toLowerCase words)))
  = Normal o.
Proof.
  intros Hc1 Hc2 H o. subst o. cbv zeta.
  destruct ws as [ | w ws']; [reflexivity | ].
  assert (Hne : w :: ws' <> []) by discriminate.
  rewrite (rendered_trim c _ H), (rendered_not_empty c _ H Hne).
  rewrite (rendered_normalized_kebab c Hc1 Hc2 _ H).
  rewrite (rendered_tokens _ H Hne), (toLowerCase_words _ H). reflexivity.
Qed.

(** C8.  [toSnakeCase], [toKebabCase] and [toDotCase] return their own
    output unchanged: for every string [s] each of them returns a string
    [r], and returns [r] again on [r]. *)
Theorem rendering_idempotent : forall s,
  (exists r, toSnakeCase (JsString s) = Normal r /\
             toSnakeCase (JsString r) = Normal r) /\
  (exists r, toKebabCase (JsString s) = Normal r /\
             toKebabCase (JsString r) = Normal r) /\
  (exists r, toDotCase (JsString s) = Normal r /\
             toDotCase (JsString r) = Normal r).
Proof.
  intros s. split; [ | split].
  - unfold toSnakeCase at 1. cbv zeta.
    destruct (Nat.eqb (List.length (trim s)) 0);
      [exists []; split; reflexivity | ].
    eexists. split; [reflexivity | ].
    exact (rerender_lowered 95%N _ eq_refl eq_refl (lowered_tokens (trim s))).
  - unfold toKebabCase at 1. cbv zeta.
    destruct (Nat.eqb (List.length (trim s)) 0);
      [exists []; split; reflexivity | ].
    match goal with
    | |- context [filter nonEmpty ?t] => set (ws0 := filter nonEmpty t)
    end.
    pose proof (kebab_tokens (trim s)) as H. fold ws0 in H.
    destruct (Nat.eqb (List.length ws0) 0) eqn:E0;
      [exists []; split; reflexivity | ].
    eexists. split; [reflexivity | ].
    exact (rerender_kebab 45%N _ eq_refl eq_refl H).
  - unfold toDotCase at 1. cbv zeta.
    destruct (Nat.eqb (List.length (trim s)) 0);
      [exists []; split; reflexivity | ].
    eexists. split; [reflexivity | ].
    exact (rerender_lowered 46%N _ eq_refl eq_refl (lowered_tokens (trim s))).
Qed.

(* ================================================================== *)
(** ** The tokenizer as one scan *)
(* ================================================================== *)

Section Scan.

Local Open Scope N_scope.

(** [sep] holds of every white space. *)
Variable sep : codeUnit -> bool.
Hypothesis sep_ws : forall c, isWhiteSpace c = true -> sep c = true.

Lemma flush_app_nil acc : flush (acc ++ []) = flush acc.
Proof. now rewrite app_nil_r. Qed.

Lemma scan_trimStart s : scan sep [] (trimStart s) = scan sep [] s.
Proof.
  unfold trimStart. induction s as [ | c s IH]; [reflexivity | ].
  simpl. destruct (isWhiteSpace c) eqn:E; [ | reflexivity].
  now rewrite (sep_ws c E).
Qed.

Lemma scan_trimEnd s : forall acc, scan sep acc (trimEnd s) = scan sep acc s.
Proof.
  induction s as [ | c s IH]; intros acc; [reflexivity | ].
  simpl. destruct (trimEnd s) as [ | d r] eqn:E.
  - destruct (isWhiteSpace c) eqn:Ec.
    + rewrite (sep_ws c Ec), <- IH. simpl. now rewrite app_nil_r.
    + simpl. destruct (sep c); now rewrite <- IH.
  - simpl. destruct (sep c); now rewrite <- IH.
Qed.

Lemma scan_trim s : scan sep [] (trim s) = scan sep [] s.
Proof.
  unfold trim. now rewrite scan_trimEnd, scan_trimStart.
Qed.

Lemma scan_collapseWs s : forall b acc,
  (b = true -> acc = []) ->
  scan sep acc (collapseWs b s) = scan sep acc s.
Proof.
  assert (HSP : sep SP = true) by (apply sep_ws; reflexivity).
  induction s as [ | c s IH]; intros b acc Hb; [reflexivity | ].
  simpl. destruct (isWhiteSpace c) eqn:E.
  - rewrite (sep_ws c E). destruct b.
    + rewrite (Hb eq_refl). simpl. now apply IH.
    + simpl. rewrite HSP. f_equal. now apply IH.
  - simpl. destruct (sep c).
    + f_equal. apply IH. discriminate.
    + apply IH. discriminate.
Qed.

(** A replacement of separators by separators does not change the words. *)
Lemma scan_map (f : codeUnit -> codeUnit) s :
  (forall c, sep c = true -> sep (f c) = true) ->
  (forall c, sep c = false -> f c = c) ->
  forall acc, scan sep acc (List.map f s) = scan sep acc s.
Proof.
  intros H1 H2. induction s as [ | c s IH]; intros acc; [reflexivity | ].
  simpl. destruct (sep c) eqn:E.
  - rewrite (H1 c E). now rewrite IH.
  - rewrite (H2 c E), E. apply IH.
Qed.

Lemma scan_ext (sep' : codeUnit -> bool) s :
  Forall (fun c => sep c = sep' c) s ->
  forall acc, scan sep acc s = scan sep' acc s.
Proof.
  induction 1 as [ | c s Hc Hs IH]; intros acc; [reflexivity | ].
  simpl. rewrite <- Hc. destruct (sep c); now rewrite IH.
Qed.

(** Leading and trailing separators add no word. *)
Lemma scan_app_seps_l a s :
  Forall (fun c => sep c = true) a -> scan sep [] (a ++ s) = scan sep [] s.
Proof.
  induction 1 as [ | c a Hc Ha IH]; [reflexivity | ].
  simpl. now rewrite Hc.
Qed.

Lemma scan_app_seps_r b s :
  Forall (fun c => sep c = true) b ->
  forall acc, scan sep acc (s ++ b) = scan sep acc s.
Proof.
  intros Hb. induction s as [ | c s IH]; intros acc.
  - simpl. clear sep_ws. revert acc.
    induction Hb as [ | c b Hc Hb' IH]; intros acc; [reflexivity | ].
    simpl. rewrite Hc, (IH []). simpl. apply app_nil_r.
  - simpl. destruct (sep c); now rewrite IH.
Qed.

(** The code units of the words are those of the string that are no
    separators, in their order. *)
Lemma concat_flush acc : List.concat (flush acc) = acc.
Proof. destruct acc; simpl; [reflexivity | now rewrite app_nil_r]. Qed.

Lemma concat_scan s : forall acc,
  List.concat (scan sep acc s) = acc ++ filter (fun c => negb (sep c)) s.
Proof.
  induction s as [ | c s IH]; intros acc; simpl.
  - now rewrite concat_flush, app_nil_r.
  - destruct (sep c); simpl.
    + now rewrite concat_app, concat_flush, IH.
    + now rewrite IH, <- app_assoc.
Qed.

(** A word between separators is found as it is. *)
Lemma scan_word_app w s :
  Forall (fun c => sep c = false) w ->
  forall acc, scan sep acc (w ++ s) = scan sep (acc ++ w) s.
Proof.
  induction 1 as [ | c w Hc Hw IH]; intros acc; simpl.
  - now rewrite app_nil_r.
  - rewrite Hc, IH, <- app_assoc. reflexivity.
Qed.

Lemma scan_join c ws :
  sep c = true ->
  Forall (fun w => w <> [] /\ Forall (fun d => sep d = false) w) ws ->
  scan sep [] (join [c] ws) = ws.
Proof.
  intros Hc. induction 1 as [ | w ws [Hne Hw] Hws IH]; [reflexivity | ].
  destruct ws as [ | w' ws'].
  - simpl. rewrite <- (app_nil_r w) at 1.
    rewrite scan_word_app by assumption. simpl.
    destruct w; [contradiction | reflexivity].
  - change (join [c] (w :: w' :: ws')) with (w ++ c :: join [c] (w' :: ws')).
    rewrite scan_word_app by assumption. rewrite app_nil_l.
    cbn [scan]. rewrite Hc, IH.
    destruct w; [contradiction | reflexivity].
Qed.

End Scan.

Section ScanSplit.

Local Open Scope N_scope.

(** [split] followed by the filter of the empty strings is a scan. *)
Lemma scan_split sep s : forall acc,
  scan (fun c => c =? sep) acc s
  = match split sep s with
    | w :: ws => filter nonEmpty ((acc ++ w) :: ws)
    | [] => []
    end.
Proof.
  induction s as [ | c s IH]; intros acc.
  - simpl. rewrite app_nil_r. destruct acc; reflexivity.
  - simpl. destruct (c =? sep).
    + rewrite (IH []). rewrite app_nil_r.
      pose proof (split_not_nil sep s) as Hne.
      destruct (split sep s) as [ | w ws]; [contradiction | ].
      destruct acc; reflexivity.
    + rewrite (IH (acc ++ [c])).
      pose proof (split_not_nil sep s) as Hne.
      destruct (split sep s) as [ | w ws]; [contradiction | ].
      now rewrite <- app_assoc.
Qed.

Lemma tokens_scan s :
  filter nonEmpty (split SP s) = scan (fun c => c =? SP) [] s.
Proof.
  rewrite scan_split.
  pose proof (split_not_nil SP s) as Hne.
  destruct (split SP s); [contradiction | reflexivity].
Qed.

Lemma notAlnum_ws c : isWhiteSpace c = true -> notAlnum c = true.
Proof.
  intros H. unfold notAlnum. destruct (isAlnum c) eqn:E; [ | reflexivity].
  apply isAlnum_not_ws in E. congruence.
Qed.

Lemma notAlpha_ws c : isWhiteSpace c = true -> notAlpha c = true.
Proof.
  intros H. unfold notAlpha. destruct (isAlpha c) eqn:E; [ | reflexivity].
  assert (E' : isAlnum c = true) by (unfold isAlnum; now rewrite E).
  apply isAlnum_not_ws in E'. congruence.
Qed.

Lemma scan_replace_notAlnumWs s acc :
  scan notAlnum acc (replace_notAlnumWs s) = scan notAlnum acc s.
Proof.
  unfold replace_notAlnumWs. apply scan_map.
  - intros c Hc. unfold notAlnum in Hc. destruct (isAlnum c); [discriminate | ].
    simpl. destruct (isWhiteSpace c) eqn:E; [now apply notAlnum_ws | reflexivity].
  - intros c Hc. unfold notAlnum in Hc. now destruct (isAlnum c).
Qed.

(** The words of a normalized string are its runs of letters and digits. *)
Lemma tokens_alnumRuns s :
  Forall (fun c => c = SP \/ isAlnum c = true) s ->
  filter nonEmpty (split SP s) = scan notAlnum [] s.
Proof.
  intros H. rewrite tokens_scan. apply scan_ext.
  eapply Forall_impl; [ | exact H]. cbv beta. intros c [-> | Hc].
  - reflexivity.
  - unfold notAlnum. rewrite Hc.
    destruct (N.eqb_spec c SP) as [-> | _]; [discriminate Hc | reflexivity].
Qed.

Lemma normalized_alnumRuns s :
  filter nonEmpty (split SP (trim (replace_wsRuns (replace_notAlnumWs s))))
  = scan notAlnum [] s.
Proof.
  rewrite (tokens_alnumRuns _ (normalized_class s)).
  rewrite (scan_trim notAlnum notAlnum_ws).
  unfold replace_wsRuns.
  rewrite (scan_collapseWs notAlnum notAlnum_ws) by discriminate.
  apply scan_replace_notAlnumWs.
Qed.

End ScanSplit.

Lemma normalizeString_scan s :
  normalizeString (JsString s) = Normal (scan notAlnum [] s).
Proof.
  unfold normalizeString. cbv zeta.
  destruct (Nat.eqb (List.length (trim s)) 0) eqn:E.
  - rewrite <- (scan_trim notAlnum notAlnum_ws s), (trim_empty s E).
    reflexivity.
  - rewrite normalized_alnumRuns.
    now rewrite (scan_trim notAlnum notAlnum_ws).
Qed.

(** X1.  On every string [normalizeString] returns the maximal runs of ASCII
    letters and digits, in their order: the trims, the two replacements, the
    split and the filter together are one scan of the input. *)
Theorem normalizeString_alnumRuns : forall s,
  normalizeString (JsString s) = Normal (alnumRuns s).
Proof. exact normalizeString_scan. Qed.

Lemma word_alnum_scan ws :
  Forall (word isAlnum) ws ->
  Forall (fun w => w <> [] /\ Forall (fun d => notAlnum d = false) w) ws.
Proof.
  apply Forall_impl. intros w [Hne Hw]. split; [exact Hne | ].
  eapply Forall_impl; [ | exact Hw]. cbv beta. intros d Hd.
  unfold notAlnum. now rewrite Hd.
Qed.

(** X2.  Words of letters and digits joined by any one code unit that is
    neither (a space, a tab, a hyphen, an underscore, a dot, ...) are
    tokenized into these words again. *)
Theorem normalizeString_join : forall c ws,
  isAlnum c = false ->
  Forall (fun w => w <> [] /\ Forall (fun d => isAlnum d = true) w) ws ->
  normalizeString (JsString (join [c] ws)) = Normal ws.
Proof.
  intros c ws Hc Hws. rewrite normalizeString_scan. f_equal.
  apply scan_join.
  - unfold notAlnum. now rewrite Hc.
  - now apply word_alnum_scan.
Qed.

Lemma normalizeString_join_witness :
  normalizeString (JsString (js "user/first9/Name"))
  = Normal [js "user"; js "first9"; js "Name"].
Proof.
  apply (normalizeString_join 47%N [js "user"; js "first9"; js "Name"]).
  - reflexivity.
  - repeat constructor; discriminate.
Defined.

(** X3.  White space and punctuation around a string do not change its
    tokens, nor what the [chain*] converters return for it. *)
Theorem padding_ignored : forall a b s,
  Forall (fun c => isAlnum c = false) a ->
  Forall (fun c => isAlnum c = false) b ->
  normalizeString (JsString (a ++ s ++ b)) = normalizeString (JsString s) /\
  Forall (fun f => f (JsString (a ++ s ++ b)) = f (JsString s))
         [chainCamelCase; chainPascalCase; chainSnakeCase; chainKebabCase;
          chainDotCase].
Proof.
  intros a b s Ha Hb.
  assert (H : normalizeString (JsString (a ++ s ++ b))
              = normalizeString (JsString s)).
  { rewrite !normalizeString_scan. f_equal.
    rewrite scan_app_seps_l, scan_app_seps_r; [reflexivity | | ].
    - eapply Forall_impl; [ | exact Hb]. cbv beta. intros c Hc.
      unfold notAlnum. now rewrite Hc.
    - eapply Forall_impl; [ | exact Ha]. cbv beta. intros c Hc.
      unfold notAlnum. now rewrite Hc. }
  split; [exact H | ].
  unfold chainCamelCase, chainPascalCase, chainSnakeCase, chainKebabCase,
    chainDotCase.
  repeat constructor; now rewrite H.
Qed.

Lemma padding_ignored_witness :
  chainSnakeCase (JsString (js "--" ++ js "user id" ++ js " !"))
  = chainSnakeCase (JsString (js "user id")).
Proof.
  assert (Ha : Forall (fun c => isAlnum c = false) (js "--"))
    by (repeat constructor).
  assert (Hb : Forall (fun c => isAlnum c = false) (js " !"))
    by (repeat constructor).
  pose proof (proj2 (padding_ignored (js "--") (js " !") (js "user id") Ha Hb))
    as H.
  exact (Forall_inv (Forall_inv_tail (Forall_inv_tail H))).
Defined.

(** X4.  The [chain*] converters pass the error of [normalizeString] on: for
    a value that is no string each of them throws InvalidInputType, and for
    a string none of them throws. *)
Theorem chain_converters_validate :
  (forall v, is_string v = false ->
     Forall (fun f => f v = Throw (InvalidInputType v))
            [chainCamelCase; chainPascalCase; chainSnakeCase; chainKebabCase;
             chainDotCase]) /\
  (forall s,
     Forall (fun f => exists r, f (JsString s) = Normal r)
            [chainCamelCase; chainPascalCase; chainSnakeCase; chainKebabCase;
             chainDotCase]).
Proof.
  split.
  - intros v Hv. destruct v; try discriminate Hv; repeat constructor.
  - intros s. repeat constructor;
      unfold chainCamelCase, chainPascalCase, chainSnakeCase, chainKebabCase,
        chainDotCase;
      rewrite normalizeString_scan; eexists; reflexivity.
Qed.

Lemma chain_converters_validate_witness :
  chainPascalCase JsUndefined
  = Throw (TypeError (js "Input must be a string, received undefined")).
Proof.
  pose proof (proj1 chain_converters_validate JsUndefined eq_refl) as H.
  exact (Forall_inv (Forall_inv_tail H)).
Defined.

(* ================================================================== *)
(** ** The converters of the two files agree *)
(* ================================================================== *)

Section Siblings.

Local Open Scope N_scope.

Lemma lowerUnit_eq_SP c : lowerUnit c = SP <-> c = SP.
Proof.
  split; [ | now intros ->].
  unfold lowerUnit, SP. destruct (isUpper c) eqn:E; [ | tauto].
  apply inRange_spec in E. lia.
Qed.

Lemma split_map (f : codeUnit -> codeUnit) sep s :
  (forall c, f c = sep <-> c = sep) ->
  split sep (List.map f s) = List.map (List.map f) (split sep s).
Proof.
  intros Hf. induction s as [ | c s IH]; simpl; [reflexivity | ].
  destruct (N.eqb_spec c sep) as [E | E].
  - subst c. rewrite (proj2 (Hf sep) eq_refl), N.eqb_refl.
    simpl. now rewrite IH.
  - destruct (N.eqb_spec (f c) sep) as [E' | E'];
      [exfalso; apply E, (proj1 (Hf c)), E' | ].
    rewrite IH.
    pose proof (split_not_nil sep s) as Hne.
    destruct (split sep s) as [ | w ws]; [contradiction | reflexivity].
Qed.

Lemma filter_nonEmpty_map (f : codeUnit -> codeUnit) ws :
  filter nonEmpty (List.map (List.map f) ws)
  = List.map (List.map f) (filter nonEmpty ws).
Proof.
  induction ws as [ | w ws IH]; [reflexivity | ].
  simpl. destruct w; simpl; now rewrite IH.
Qed.

(** Lowering before the split or after it gives the same words. *)
Lemma lowered_tokens_map s :
  filter nonEmpty (split SP (toLowerCase s))
  = List.map toLowerCase (filter nonEmpty (split SP s)).
Proof.
  unfold toLowerCase. rewrite (split_map lowerUnit SP s lowerUnit_eq_SP).
  apply filter_nonEmpty_map.
Qed.

Lemma robustCamelCase_chain v : robustCamelCase v = chainCamelCase v.
Proof.
  destruct v; try reflexivity.
  unfold robustCamelCase, chainCamelCase, normalizeString. cbv zeta.
  destruct (Nat.eqb (List.length (trim s)) 0); [reflexivity | ].
  simpl. unfold renderCamel.
  match goal with
  | |- context [Nat.eqb (List.length ?l) 0] =>
      destruct (Nat.eqb (List.length l) 0)
  end; reflexivity.
Qed.

Lemma toDotCase_chain v : toDotCase v = chainDotCase v.
Proof.
  destruct v; try reflexivity.
  unfold toDotCase, chainDotCase, normalizeString. cbv zeta.
  destruct (Nat.eqb (List.length (trim s)) 0); [reflexivity | ].
  simpl. unfold renderDot. now rewrite lowered_tokens_map.
Qed.

Lemma toSnakeCase_chain s :
  toSnakeCase (JsString s) = chainSnakeCase (JsString s).
Proof.
  unfold toSnakeCase, chainSnakeCase, normalizeString. cbv zeta.
  destruct (Nat.eqb (List.length (trim s)) 0); [reflexivity | ].
  simpl. unfold renderSnake. now rewrite lowered_tokens_map.
Qed.

End Siblings.

(** X5.  The converters written twice agree: [robustCamelCase] is
    [chainCamelCase] and [toDotCase] is [chainDotCase] on every value, and
    [toSnakeCase] is [chainSnakeCase] on every string. *)
Theorem siblings_agree :
  (forall v, robustCamelCase v = chainCamelCase v) /\
  (forall v, toDotCase v = chainDotCase v) /\
  (forall s, toSnakeCase (JsString s) = chainSnakeCase (JsString s)).
Proof.
  split; [exact robustCamelCase_chain | ].
  split; [exact toDotCase_chain | exact toSnakeCase_chain].
Qed.

(* ================================================================== *)
(** ** What a rendered string looks like *)
(* ================================================================== *)

Section Rendered.

Local Open Scope N_scope.

Lemma split_app sep a s :
  split sep (a ++ sep :: s) = split sep a ++ split sep s.
Proof.
  induction a as [ | c a IH]; simpl.
  - now rewrite N.eqb_refl.
  - rewrite IH. destruct (c =? sep); [reflexivity | ].
    pose proof (split_not_nil sep a) as Hne.
    destruct (split sep a); [contradiction | reflexivity].
Qed.

Lemma no_empty_word ws :
  Forall (fun w : jsstring => w <> []) ws -> ~ In [] ws.
Proof.
  rewrite Forall_forall. intros H Hin. now apply (H [] Hin).
Qed.

Lemma join_wellSeparated sep ws :
  isLowerAlnum sep = false ->
  Forall (word isLowerAlnum) ws -> wellSeparated sep (join [sep] ws).
Proof.
  intros Hsep H.
  assert (Hne : Forall (fun w : jsstring => w <> []) ws).
  { eapply Forall_impl; [ | exact H]. now intros w [Hw _]. }
  assert (Hns : Forall (Forall (fun c => c <> sep)) ws).
  { eapply Forall_impl; [ | exact H]. intros w [_ Hw].
    eapply Forall_impl; [ | exact Hw]. cbv beta. intros c Hc ->. congruence. }
  split.
  { apply Forall_join; [constructor; [now right | constructor] | ].
    eapply Forall_impl; [ | exact H]. intros w [_ Hw].
    eapply Forall_impl; [ | exact Hw]. cbv beta. now left. }
  destruct ws as [ | w ws'].
  { simpl. repeat split.
    - discriminate.
    - intros t E. symmetry in E. apply app_eq_nil in E.
      destruct E as [_ E]. discriminate E.
    - intros a b E. symmetry in E. apply app_eq_nil in E.
      destruct E as [_ E]. discriminate E. }
  assert (Hs : split sep (join [sep] (w :: ws')) = w :: ws')
    by (apply split_join; [discriminate | exact Hns]).
  pose proof (no_empty_word _ Hne) as Hno.
  repeat split.
  - intros t E. rewrite E in Hs. simpl in Hs. rewrite N.eqb_refl in Hs.
    apply Hno. rewrite <- Hs. now left.
  - intros t E. rewrite E in Hs. rewrite split_app in Hs. simpl in Hs.
    apply Hno. rewrite <- Hs. apply in_or_app. right. now left.
  - intros a b E. rewrite E in Hs. rewrite split_app in Hs. simpl in Hs.
    rewrite N.eqb_refl in Hs.
    apply Hno. rewrite <- Hs. apply in_or_app. right. now left.
Qed.

(** What the three converters return, as words joined. *)
Lemma toSnakeCase_words s :
  exists ws, Forall (word isLowerAlnum) ws /\
             toSnakeCase (JsString s) = Normal (join [95] ws).
Proof.
  unfold toSnakeCase. cbv zeta.
  destruct (Nat.eqb (List.length (trim s)) 0).
  - exists []. split; [constructor | reflexivity].
  - eexists. split; [apply (lowered_tokens (trim s)) | reflexivity].
Qed.

Lemma toDotCase_words s :
  exists ws, Forall (word isLowerAlnum) ws /\
             toDotCase (JsString s) = Normal (join [46] ws).
Proof.
  unfold toDotCase. cbv zeta.
  destruct (Nat.eqb (List.length (trim s)) 0).
  - exists []. split; [constructor | reflexivity].
  - eexists. split; [apply (lowered_tokens (trim s)) | reflexivity].
Qed.

Lemma toKebabCase_words s :
  exists ws, Forall (word isLowerAlnum) ws /\
             toKebabCase (JsString s) = Normal (join [45] ws).
Proof.
  unfold toKebabCase. cbv zeta.
  destruct (Nat.eqb (List.length (trim s)) 0).
  - exists []. split; [constructor | reflexivity].
  - match goal with
    | |- context [Nat.eqb (List.length ?l) 0] =>
        destruct (Nat.eqb (List.length l) 0)
    end.
    + exists []. split; [constructor | reflexivity].
    + eexists. split; [apply (kebab_tokens (trim s)) | reflexivity].
Qed.

End Rendered.

(** X6.  What [toSnakeCase], [toKebabCase] and [toDotCase] return for a
    string holds lower-case letters, digits and the separator only, and the
    separator stands neither first nor last nor twice in a row. *)
Theorem separators_single : forall s,
  (exists r, toSnakeCase (JsString s) = Normal r /\ wellSeparated 95%N r) /\
  (exists r, toKebabCase (JsString s) = Normal r /\ wellSeparated 45%N r) /\
  (exists r, toDotCase (JsString s) = Normal r /\ wellSeparated 46%N r).
Proof.
  intros s. split; [ | split].
  - destruct (toSnakeCase_words s) as [ws [H E]]. eexists. split; [exact E | ].
    now apply join_wellSeparated.
  - destruct (toKebabCase_words s) as [ws [H E]]. eexists. split; [exact E | ].
    now apply join_wellSeparated.
  - destruct (toDotCase_words s) as [ws [H E]]. eexists. split; [exact E | ].
    now apply join_wellSeparated.
Qed.

(* ================================================================== *)
(** ** From one format to another *)
(* ================================================================== *)

Section Convert.

Local Open Scope N_scope.

(** [c] joins the words of the input, [d] those of the output. *)
Variables c d : codeUnit.
Hypothesis c_not_alnum : isAlnum c = false.
Hypothesis c_not_ws : isWhiteSpace c = false.

Lemma convert_lowered ws :
  Forall (word isLowerAlnum) ws ->
  let o := join [c] ws in
  (if Nat.eqb (List.length (trim o)) 0 then Normal []
   else Normal (join [d]
                  (filter nonEmpty
                     (split SP (toLowerCase
                                  (trim (replace_wsRuns
                                           (replace_notAlnumWs (trim o)))))))))
  = Normal (join [d] ws).
Proof.
  intros H o. subst o.
  destruct ws as [ | w ws']; [reflexivity | ].
  assert (Hne : w :: ws' <> []) by discriminate.
  rewrite (rendered_trim c _ H), (rendered_not_empty c _ H Hne).
  rewrite (rendered_normalized c c_not_alnum c_not_ws _ H).
  rewrite (toLowerCase_join _ H), (rendered_tokens _ H Hne). reflexivity.
Qed.

Lemma convert_kebab ws :
  Forall (word isLowerAlnum) ws ->
  let o := join [c] ws in
  (if Nat.eqb (List.length (trim o)) 0 then Normal []
   else
     let words :=
       filter nonEmpty
         (split SP (trim (replace_wsRuns
                            (replace_lowerUpper
                               (replace_notAlnumWs (trim o)))))) in
     if Nat.eqb (List.length words) 0 then Normal []
     else Normal (join [d] (List.map toLowerCase words)))
  = Normal (join [d] ws).
Proof.
  intros H o. subst o. cbv zeta.
  destruct ws as [ | w ws']; [reflexivity | ].
  assert (Hne : w :: ws' <> []) by discriminate.
  rewrite (rendered_trim c _ H), (rendered_not_empty c _ H Hne).
  rewrite (rendered_normalized_kebab c c_not_alnum c_not_ws _ H).
  rewrite (rendered_tokens _ H Hne), (toLowerCase_words _ H). reflexivity.
Qed.

End Convert.

(** X7.  A rendered string converts like the string it came from:
    [toSnakeCase] of the dot form is the snake form and [toDotCase] of the
    snake form is the dot form; [toKebabCase] of the snake form is what
    [chainKebabCase] returns; and the kebab form comes back from its own
    snake and dot forms. *)
Theorem formats_convert : forall s,
  (r <- toDotCase (JsString s) ;; toSnakeCase (JsString r))
  = toSnakeCase (JsString s) /\
  (r <- toSnakeCase (JsString s) ;; toDotCase (JsString r))
  = toDotCase (JsString s) /\
  (r <- toSnakeCase (JsString s) ;; toKebabCase (JsString r))
  = chainKebabCase (JsString s) /\
  (r <- toKebabCase (JsString s) ;; r' <- toSnakeCase (JsString r) ;;
   toKebabCase (JsString r'))
  = toKebabCase (JsString s) /\
  (r <- toKebabCase (JsString s) ;; r' <- toDotCase (JsString r) ;;
   toKebabCase (JsString r'))
  = toKebabCase (JsString s).
Proof.
  intros s.
  assert (Hsd : forall ws, Forall (word isLowerAlnum) ws ->
            toSnakeCase (JsString (join [46%N] ws)) = Normal (join [95%N] ws))
    by (intros ws H; exact (convert_lowered 46%N 95%N eq_refl eq_refl ws H)).
  assert (Hds : forall ws, Forall (word isLowerAlnum) ws ->
            toDotCase (JsString (join [95%N] ws)) = Normal (join [46%N] ws))
    by (intros ws H; exact (convert_lowered 95%N 46%N eq_refl eq_refl ws H)).
  assert (Hks : forall ws, Forall (word isLowerAlnum) ws ->
            toSnakeCase (JsString (join [45%N] ws)) = Normal (join [95%N] ws))
    by (intros ws H; exact (convert_lowered 45%N 95%N eq_refl eq_refl ws H)).
  assert (Hkd : forall ws, Forall (word isLowerAlnum) ws ->
            toDotCase (JsString (join [45%N] ws)) = Normal (join [46%N] ws))
    by (intros ws H; exact (convert_lowered 45%N 46%N eq_refl eq_refl ws H)).
  assert (Hsk : forall ws, Forall (word isLowerAlnum) ws ->
            toKebabCase (JsString (join [95%N] ws)) = Normal (join [45%N] ws))
    by (intros ws H; exact (convert_kebab 95%N 45%N eq_refl eq_refl ws H)).
  assert (Hdk : forall ws, Forall (word isLowerAlnum) ws ->
            toKebabCase (JsString (join [46%N] ws)) = Normal (join [45%N] ws))
    by (intros ws H; exact (convert_kebab 46%N 45%N eq_refl eq_refl ws H)).
  split; [ | split; [ | split; [ | split]]].
  - unfold toDotCase at 1, toSnakeCase at 2. cbv zeta.
    destruct (Nat.eqb (List.length (trim s)) 0); [reflexivity | ].
    cbn [bind]. apply (Hsd _ (lowered_tokens (trim s))).
  - unfold toSnakeCase at 1, toDotCase at 2. cbv zeta.
    destruct (Nat.eqb (List.length (trim s)) 0); [reflexivity | ].
    cbn [bind]. apply (Hds _ (lowered_tokens (trim s))).
  - rewrite toSnakeCase_chain.
    unfold chainSnakeCase, chainKebabCase. rewrite normalizeString_scan.
    cbn [bind]. unfold renderSnake, renderKebab.
    apply (Hsk (List.map toLowerCase (scan notAlnum [] s))).
    rewrite <- normalized_alnumRuns. apply Forall_map.
    pose proof (tokens_words isAlnum _ (normalized_class s)) as H.
    eapply Forall_impl; [ | exact H]. intros w Hw.
    apply map_word with (p := isAlnum); [apply lowerUnit_alnum | exact Hw].
  - destruct (toKebabCase_words s) as [ws [H E]]. rewrite E. cbn [bind].
    rewrite (Hks ws H). cbn [bind]. apply (Hsk ws H).
  - destruct (toKebabCase_words s) as [ws [H E]]. rewrite E. cbn [bind].
    rewrite (Hkd ws H). cbn [bind]. apply (Hdk ws H).
Qed.

(* ================================================================== *)
(** ** The letters and digits are kept *)
(* ================================================================== *)

Section Kept.

Local Open Scope N_scope.

Lemma alnumRuns_words s : Forall (word isAlnum) (scan notAlnum [] s).
Proof.
  rewrite <- normalized_alnumRuns.
  apply tokens_words, normalized_class.
Qed.

Lemma concat_alnumRuns s :
  List.concat (scan notAlnum [] s) = filter isAlnum s.
Proof.
  rewrite concat_scan. simpl. apply filter_ext.
  intros c. unfold notAlnum. apply negb_involutive.
Qed.

Lemma filter_word (p : codeUnit -> bool) w :
  Forall (fun c => p c = true) w -> filter p w = w.
Proof.
  induction 1 as [ | c w Hc Hw IH]; simpl; [reflexivity | ].
  now rewrite Hc, IH.
Qed.

Lemma filter_alnum_join c ws :
  isAlnum c = false -> Forall (word isAlnum) ws ->
  filter isAlnum (join [c] ws) = List.concat ws.
Proof.
  intros Hc. induction 1 as [ | w ws [_ Hw] Hws IH]; [reflexivity | ].
  destruct ws as [ | w' ws'].
  - simpl. rewrite app_nil_r. now apply filter_word.
  - change (join [c] (w :: w' :: ws')) with (w ++ c :: join [c] (w' :: ws')).
    rewrite filter_app. cbn [filter]. rewrite Hc, IH.
    now rewrite (filter_word isAlnum w Hw).
Qed.

Lemma toLowerCase_concat ws :
  toLowerCase (List.concat ws) = List.concat (List.map toLowerCase ws).
Proof. unfold toLowerCase. apply concat_map. Qed.

Lemma lowered_words ws :
  Forall (word isAlnum) ws ->
  Forall (word isLowerAlnum) (List.map toLowerCase ws).
Proof.
  intros H. apply Forall_map. eapply Forall_impl; [ | exact H].
  intros w Hw.
  apply map_word with (p := isAlnum); [apply lowerUnit_alnum | exact Hw].
Qed.

(** The letters and digits of lowered words joined by a separator. *)
Lemma rendered_kept c ws :
  isAlnum c = false -> Forall (word isAlnum) ws ->
  filter isAlnum (join [c] (List.map toLowerCase ws))
  = toLowerCase (List.concat ws).
Proof.
  intros Hc H. rewrite filter_alnum_join; [ | exact Hc | ].
  - symmetry. apply toLowerCase_concat.
  - eapply words_weaken; [ | apply lowered_words, H].
    apply isLowerAlnum_isAlnum.
Qed.

Lemma filter_alnum_lowerUpper s :
  filter isAlnum (replace_lowerUpper s) = filter isAlnum s.
Proof.
  unfold jsstring, codeUnit in s.
  induction s as [ | a | a b s IH1 IH2] using pairs_ind;
    [reflexivity | reflexivity | ].
  change (replace_lowerUpper (a :: b :: s))
    with (if isLower a && isUpper b
          then a :: SP :: b :: replace_lowerUpper s
          else a :: replace_lowerUpper (b :: s)).
  destruct (isLower a && isUpper b).
  - cbn [filter]. change (isAlnum SP) with false. cbv iota.
    now rewrite IH1.
  - cbn [filter] in *. now rewrite IH2.
Qed.

Lemma kebab_alnumRuns s :
  filter nonEmpty
    (split SP (trim (replace_wsRuns
                       (replace_lowerUpper (replace_notAlnumWs s)))))
  = scan notAlnum [] (replace_lowerUpper (replace_notAlnumWs s)).
Proof.
  rewrite (tokens_alnumRuns _ (normalized_kebab_class s)).
  rewrite (scan_trim notAlnum notAlnum_ws).
  unfold replace_wsRuns.
  now rewrite (scan_collapseWs notAlnum notAlnum_ws) by discriminate.
Qed.

(** What [toKebabCase] returns: the runs of letters and digits, after the
    case boundaries were marked, lowered and joined. *)
Lemma toKebabCase_render s :
  toKebabCase (JsString s)
  = Normal (join [45]
              (List.map toLowerCase
                 (scan notAlnum []
                    (replace_lowerUpper (replace_notAlnumWs (trim s)))))).
Proof.
  unfold toKebabCase. cbv zeta.
  destruct (Nat.eqb (List.length (trim s)) 0) eqn:E.
  - now rewrite (trim_empty s E).
  - rewrite kebab_alnumRuns.
    destruct (scan notAlnum [] _); reflexivity.
Qed.

Lemma kebab_kept s :
  List.concat (scan notAlnum []
                 (replace_lowerUpper (replace_notAlnumWs (trim s))))
  = filter isAlnum s.
Proof.
  rewrite concat_alnumRuns, filter_alnum_lowerUpper.
  rewrite <- !concat_alnumRuns.
  now rewrite scan_replace_notAlnumWs, (scan_trim notAlnum notAlnum_ws).
Qed.

Lemma kebab_words s :
  Forall (word isAlnum)
    (scan notAlnum [] (replace_lowerUpper (replace_notAlnumWs (trim s)))).
Proof.
  rewrite <- kebab_alnumRuns.
  apply tokens_words, normalized_kebab_class.
Qed.

End Kept.

(** X8.  The separator converters keep the letters and digits of the input,
    lowered and in their order, and add nothing but their separator: the
    result holds lower-case letters, digits and the separator only, and its
    letters and digits are those of the input in lower case. *)
Theorem letters_digits_kept : forall s,
  Forall (fun fc => exists r,
            fst fc (JsString s) = Normal r /\
            Forall (fun c => isLowerAlnum c = true \/ c = snd fc) r /\
            filter isAlnum r = toLowerCase (filter isAlnum s))
         [(toSnakeCase, 95%N); (toKebabCase, 45%N); (toDotCase, 46%N);
          (chainSnakeCase, 95%N); (chainKebabCase, 45%N);
          (chainDotCase, 46%N)].
Proof.
  intros s.
  assert (Hchain : forall c, isAlnum c = false -> isLowerAlnum c = false ->
            let r := join [c] (List.map toLowerCase (scan notAlnum [] s)) in
            Forall (fun d => isLowerAlnum d = true \/ d = c) r /\
            filter isAlnum r = toLowerCase (filter isAlnum s)).
  { intros c Hc Hc' r. subst r. split.
    - exact (proj1 (join_wellSeparated c _ Hc'
                      (lowered_words _ (alnumRuns_words s)))).
    - rewrite (rendered_kept c _ Hc (alnumRuns_words s)).
      now rewrite concat_alnumRuns. }
  assert (Hkebab :
            let r := join [45%N]
                       (List.map toLowerCase
                          (scan notAlnum []
                             (replace_lowerUpper
                                (replace_notAlnumWs (trim s))))) in
            Forall (fun d => isLowerAlnum d = true \/ d = 45%N) r /\
            filter isAlnum r = toLowerCase (filter isAlnum s)).
  { cbv zeta. split.
    - exact (proj1 (join_wellSeparated 45%N _ eq_refl
                      (lowered_words _ (kebab_words s)))).
    - etransitivity;
        [exact (rendered_kept 45%N _ eq_refl (kebab_words s)) | ].
      now rewrite kebab_kept. }
  constructor; [ | constructor; [ | constructor; [ | constructor;
    [ | constructor; [ | constructor; [ | constructor]]]]]]; cbn [fst snd].
  - rewrite toSnakeCase_chain. unfold chainSnakeCase.
    rewrite normalizeString_scan. eexists. split; [reflexivity | ].
    exact (Hchain 95%N eq_refl eq_refl).
  - rewrite toKebabCase_render. eexists. split; [reflexivity | ].
    exact Hkebab.
  - rewrite toDotCase_chain. unfold chainDotCase.
    rewrite normalizeString_scan. eexists. split; [reflexivity | ].
    exact (Hchain 46%N eq_refl eq_refl).
  - unfold chainSnakeCase.
    rewrite normalizeString_scan. eexists. split; [reflexivity | ].
    exact (Hchain 95%N eq_refl eq_refl).
  - unfold chainKebabCase.
    rewrite normalizeString_scan. eexists. split; [reflexivity | ].
    exact (Hchain 45%N eq_refl eq_refl).
  - unfold chainDotCase.
    rewrite normalizeString_scan. eexists. split; [reflexivity | ].
    exact (Hchain 46%N eq_refl eq_refl).
Qed.

(** X9.  On a string without an upper-case letter [toKebabCase] and
    [chainKebabCase] return the same: they differ by the step for the case
    boundary only. *)
Theorem kebab_converters_agree : forall s,
  Forall (fun c => isUpper c = false) s ->
  toKebabCase (JsString s) = chainKebabCase (JsString s).
Proof.
  intros s H. rewrite toKebabCase_render.
  unfold chainKebabCase. rewrite normalizeString_scan. cbn [bind].
  unfold renderKebab. do 3 f_equal.
  rewrite replace_lowerUpper_id.
  - now rewrite scan_replace_notAlnumWs, (scan_trim notAlnum notAlnum_ws).
  - unfold replace_notAlnumWs. apply Forall_map.
    apply (Forall_trim _ _) in H.
    eapply Forall_impl; [ | exact H]. cbv beta. intros c Hc.
    destruct (isAlnum c || isWhiteSpace c); [exact Hc | reflexivity].
Qed.

Lemma kebab_converters_agree_witness :
  toKebabCase (JsString (js "user_first.name 2"))
  = chainKebabCase (JsString (js "user_first.name 2")).
Proof.
  apply (kebab_converters_agree (js "user_first.name 2")).
  repeat constructor.
Defined.

(* ================================================================== *)
(** ** The camel and Pascal renderers *)
(* ================================================================== *)

Section Camel.

Local Open Scope N_scope.

Lemma lowerUnit_upperUnit c : lowerUnit (upperUnit c) = lowerUnit c.
Proof.
  unfold upperUnit. destruct (isLower c) eqn:E; [ | reflexivity].
  apply inRange_spec in E. unfold lowerUnit.
  assert (E1 : isUpper (c - 32) = true) by (apply inRange_spec; lia).
  assert (E2 : isUpper c = false) by (apply inRange_false; lia).
  rewrite E1, E2. lia.
Qed.

Lemma lowerUnit_not_upper c : isUpper (lowerUnit c) = false.
Proof.
  unfold lowerUnit. destruct (isUpper c) eqn:E; [ | exact E].
  apply inRange_spec in E. apply inRange_false. lia.
Qed.

Lemma lowerUnit_idem c : lowerUnit (lowerUnit c) = lowerUnit c.
Proof. apply lowerUnit_fixed, lowerUnit_not_upper. Qed.

Lemma upperUnit_not_lower c : isLower (upperUnit c) = false.
Proof.
  unfold upperUnit. destruct (isLower c) eqn:E; [ | exact E].
  apply inRange_spec in E. apply inRange_false. lia.
Qed.

Lemma upperUnit_lowerAlnum c :
  isLowerAlnum c = true -> isAlnum (upperUnit c) = true.
Proof.
  unfold isLowerAlnum. destruct (isLower c) eqn:E; simpl.
  - intros _. unfold isAlnum. now rewrite (upperUnit_lower c E).
  - intros Hd. unfold upperUnit. rewrite E.
    unfold isAlnum. rewrite Hd. apply orb_true_r.
Qed.

Lemma toLowerCase_idem w : toLowerCase (toLowerCase w) = toLowerCase w.
Proof.
  unfold toLowerCase. rewrite map_map. apply map_ext, lowerUnit_idem.
Qed.

(** Capitalizing changes the case of the first code unit only. *)
Lemma toLowerCase_capitalized w :
  toLowerCase (toUpperCase (charAt 0 w) ++ slice 1 w) = toLowerCase w.
Proof.
  destruct w as [ | c w]; [reflexivity | ].
  simpl. now rewrite lowerUnit_upperUnit.
Qed.

Lemma capitalize_app w s :
  w <> [] -> capitalize (w ++ s) = capitalize w ++ s.
Proof.
  destruct w as [ | c w]; [contradiction | reflexivity].
Qed.

Lemma capitalize_alnum w :
  Forall (fun c => isLowerAlnum c = true) w ->
  Forall (fun c => isAlnum c = true) (capitalize w).
Proof.
  intros H. destruct H as [ | c w Hc Hw]; [constructor | ].
  unfold capitalize. simpl. constructor; [now apply upperUnit_lowerAlnum | ].
  eapply Forall_impl; [ | exact Hw]. apply isLowerAlnum_isAlnum.
Qed.

Lemma join_nil ws : join [] ws = List.concat ws.
Proof.
  induction ws as [ | w ws IH]; [reflexivity | ].
  destruct ws as [ | w' ws']; [simpl; now rewrite app_nil_r | ].
  change (join [] (w :: w' :: ws')) with (w ++ join [] (w' :: ws')).
  now rewrite IH.
Qed.

Lemma mapi_from_later i ws :
  mapi_from (S i) camelWord ws = List.map pascalWord ws.
Proof.
  revert i. induction ws as [ | w ws IH]; intros i; [reflexivity | ].
  simpl. now rewrite IH.
Qed.

Lemma renderCamel_cons w ws :
  renderCamel (w :: ws)
  = toLowerCase w ++ List.concat (List.map pascalWord ws).
Proof.
  unfold renderCamel, mapi. cbn [List.length Nat.eqb].
  rewrite join_nil. cbn [mapi_from List.concat].
  fold camelWord. now rewrite mapi_from_later.
Qed.

Lemma renderPascal_cons w ws :
  renderPascal (w :: ws)
  = capitalize (toLowerCase w) ++ List.concat (List.map pascalWord ws).
Proof.
  unfold renderPascal. rewrite join_nil. reflexivity.
Qed.

Lemma renderPascal_capitalize ws :
  Forall (word isAlnum) ws -> renderPascal ws = capitalize (renderCamel ws).
Proof.
  intros H. destruct H as [ | w ws [Hne _] _]; [reflexivity | ].
  rewrite renderCamel_cons, renderPascal_cons, capitalize_app; [reflexivity | ].
  destruct w; [contradiction | discriminate].
Qed.

Lemma pascalWords_lower ws :
  toLowerCase (List.concat (List.map pascalWord ws))
  = toLowerCase (List.concat ws).
Proof.
  induction ws as [ | w ws IH]; [reflexivity | ].
  cbn [List.map List.concat]. unfold toLowerCase in *.
  rewrite !map_app, IH. f_equal.
  unfold pascalWord, capitalize.
  fold (toLowerCase (toUpperCase (charAt 0 (toLowerCase w))
                     ++ slice 1 (toLowerCase w))).
  rewrite toLowerCase_capitalized. apply toLowerCase_idem.
Qed.

Lemma pascalWords_alnum ws :
  Forall (word isAlnum) ws ->
  Forall (fun c => isAlnum c = true) (List.concat (List.map pascalWord ws)).
Proof.
  induction 1 as [ | w ws Hw Hws IH]; [constructor | ].
  cbn [List.map List.concat]. apply Forall_app. split; [ | exact IH].
  apply capitalize_alnum.
  apply (map_word lowerUnit isAlnum isLowerAlnum w lowerUnit_alnum Hw).
Qed.

Lemma renderCamel_spec ws :
  Forall (word isAlnum) ws ->
  Forall (fun c => isAlnum c = true) (renderCamel ws) /\
  startsOutside isUpper (renderCamel ws) /\
  toLowerCase (renderCamel ws) = toLowerCase (List.concat ws).
Proof.
  intros H. destruct H as [ | w ws Hw Hws]; [repeat split; constructor | ].
  rewrite renderCamel_cons. repeat split.
  - apply Forall_app. split; [ | now apply pascalWords_alnum].
    pose proof (map_word lowerUnit isAlnum isLowerAlnum w lowerUnit_alnum Hw)
      as [_ Hl].
    eapply Forall_impl; [ | exact Hl]. apply isLowerAlnum_isAlnum.
  - destruct Hw as [Hne _]. destruct w as [ | c w]; [contradiction | ].
    simpl. apply lowerUnit_not_upper.
  - cbn [List.concat]. unfold toLowerCase at 1 3. rewrite !map_app.
    fold (toLowerCase (toLowerCase w)).
    fold (toLowerCase (List.concat (List.map pascalWord ws))).
    fold (toLowerCase w). fold (toLowerCase (List.concat ws)).
    now rewrite toLowerCase_idem, pascalWords_lower.
Qed.

Lemma renderPascal_spec ws :
  Forall (word isAlnum) ws ->
  Forall (fun c => isAlnum c = true) (renderPascal ws) /\
  startsOutside isLower (renderPascal ws) /\
  toLowerCase (renderPascal ws) = toLowerCase (List.concat ws).
Proof.
  intros H. pose proof (pascalWords_alnum ws H) as Ha.
  pose proof (pascalWords_lower ws) as Hl.
  assert (E : renderPascal ws = List.concat (List.map pascalWord ws))
    by (unfold renderPascal; apply join_nil).
  rewrite E. repeat split; [exact Ha | | exact Hl].
  destruct H as [ | w ws [Hne _] _]; [constructor | ].
  destruct w as [ | c w]; [contradiction | ].
  simpl. apply upperUnit_not_lower.
Qed.

End Camel.

(** X10.  What [robustCamelCase] and [chainCamelCase] return for a string
    holds ASCII letters and digits only and does not begin with an
    upper-case letter; what [chainPascalCase] returns holds letters and
    digits only and does not begin with a lower-case letter.  Lowered, each
    result is the letters and digits of the input, lowered. *)
Theorem camel_pascal_rendering : forall s,
  Forall (fun f => exists r, f (JsString s) = Normal r /\
                             Forall (fun c => isAlnum c = true) r /\
                             startsOutside isUpper r /\
                             toLowerCase r = toLowerCase (filter isAlnum s))
         [robustCamelCase; chainCamelCase] /\
  (exists r, chainPascalCase (JsString s) = Normal r /\
             Forall (fun c => isAlnum c = true) r /\
             startsOutside isLower r /\
             toLowerCase r = toLowerCase (filter isAlnum s)).
Proof.
  intros s.
  pose proof (renderCamel_spec _ (alnumRuns_words s)) as Hc.
  pose proof (renderPascal_spec _ (alnumRuns_words s)) as Hp.
  rewrite concat_alnumRuns in Hc, Hp.
  split; [repeat constructor | ].
  - rewrite robustCamelCase_chain. unfold chainCamelCase.
    rewrite normalizeString_scan. eexists. split; [reflexivity | exact Hc].
  - unfold chainCamelCase.
    rewrite normalizeString_scan. eexists. split; [reflexivity | exact Hc].
  - unfold chainPascalCase.
    rewrite normalizeString_scan. eexists. split; [reflexivity | exact Hp].
Qed.

(** X11.  [chainPascalCase] is [chainCamelCase] with the first code unit
    capitalized, on every value (both throw the same error on a value that
    is no string). *)
Theorem pascal_capitalizes_camel : forall v,
  chainPascalCase v = (r <- chainCamelCase v ;; Normal (capitalize r)).
Proof.
  intros v. destruct v; try reflexivity.
  unfold chainPascalCase, chainCamelCase. rewrite normalizeString_scan.
  cbn [bind]. f_equal. apply renderPascal_capitalize, alnumRuns_words.
Qed.

(* ================================================================== *)
(** ** [camelCase] *)
(* ================================================================== *)

Section CamelCase.

Local Open Scope N_scope.

Lemma scan_replace_notAlphaWs s acc :
  scan notAlpha acc (replace_notAlphaWs s) = scan notAlpha acc s.
Proof.
  unfold replace_notAlphaWs. apply scan_map.
  - intros c Hc. unfold notAlpha in Hc. destruct (isAlpha c); [discriminate | ].
    simpl. destruct (isWhiteSpace c) eqn:E; [now apply notAlpha_ws | reflexivity].
  - intros c Hc. unfold notAlpha in Hc. now destruct (isAlpha c).
Qed.

Lemma normalized_alphaRuns s :
  filter nonEmpty (split SP (trim (replace_wsRuns (replace_notAlphaWs s))))
  = scan notAlpha [] s.
Proof.
  rewrite tokens_scan.
  rewrite (scan_ext (fun c => c =? SP) notAlpha).
  - rewrite (scan_trim notAlpha notAlpha_ws). unfold replace_wsRuns.
    rewrite (scan_collapseWs notAlpha notAlpha_ws) by discriminate.
    apply scan_replace_notAlphaWs.
  - pose proof (normalized_alpha_class s) as H.
    eapply Forall_impl; [ | exact H]. cbv beta. intros c [-> | Hc].
    + reflexivity.
    + unfold notAlpha. rewrite Hc.
      destruct (N.eqb_spec c SP) as [-> | _]; [discriminate Hc | reflexivity].
Qed.

(** A normalized string that is not empty splits into non-empty words. *)
Lemma normalized_split s :
  let t := trim (replace_wsRuns s) in
  t <> [] -> Forall (fun w => w <> []) (split SP t).
Proof.
  intros t Hne.
  assert (H1 : singleSpaced true t = true).
  { apply trimEnd_singleSpaced.
    apply trimStart_singleSpaced with (b := false).
    - apply collapseWs_only_SP.
    - apply collapseWs_singleSpaced. }
  assert (H2 : trimEnd t = t) by apply trimEnd_idem.
  pose proof (split_singleSpaced t true H1 H2) as H.
  destruct (split SP t) as [ | w ws]; [contradiction | ].
  destruct H as [Hw Hws]. constructor; [now apply Hw | exact Hws].
Qed.

Lemma camelCaseWord_lowered i ws :
  Forall (fun w => w <> []) ws ->
  mapi_from i camelCaseWord (List.map toLowerCase ws)
  = mapi_from i camelWord ws.
Proof.
  intros H. revert i.
  induction H as [ | w ws Hw Hws IH]; intros i; [reflexivity | ].
  cbn [List.map mapi_from]. rewrite IH. f_equal.
  destruct w as [ | c w]; [contradiction | reflexivity].
Qed.

Lemma camelWord_nonEmpty i ws :
  Forall (fun w => w <> []) ws ->
  filter nonEmpty (mapi_from i camelWord ws) = mapi_from i camelWord ws.
Proof.
  intros H. apply filter_nonEmpty_id. revert i.
  induction H as [ | w ws Hw Hws IH]; intros i; [constructor | ].
  cbn [mapi_from]. constructor; [ | apply IH].
  destruct w as [ | c w]; [contradiction | ].
  unfold camelWord. destruct (Nat.eqb i 0); discriminate.
Qed.

(** [camelCase] renders the runs of letters of its input. *)
Lemma camelCase_render s :
  RefinedPrompt.camelCase (JsString s)
  = Normal (renderCamel (scan notAlpha [] s)).
Proof.
  unfold RefinedPrompt.camelCase. cbv zeta.
  destruct (Nat.eqb (List.length (trim s)) 0) eqn:E.
  - rewrite <- (scan_trim notAlpha notAlpha_ws s), (trim_empty s E).
    reflexivity.
  - rewrite <- (scan_trim notAlpha notAlpha_ws s).
    rewrite <- normalized_alphaRuns. f_equal.
    set (t := trim (replace_wsRuns (replace_notAlphaWs (trim s)))).
    destruct t as [ | c t'] eqn:Et; [reflexivity | ].
    assert (Hne : Forall (fun w => w <> []) (split SP t)).
    { apply normalized_split. unfold t in Et. rewrite Et. discriminate. }
    rewrite <- Et.
    unfold toLowerCase at 1.
    rewrite (split_map lowerUnit SP t lowerUnit_eq_SP).
    unfold mapi.
    change (join []
              (filter nonEmpty
                 (mapi_from 0 camelCaseWord
                    (List.map toLowerCase (split SP t))))
            = renderCamel (filter nonEmpty (split SP t))).
    rewrite (camelCaseWord_lowered 0 _ Hne), (camelWord_nonEmpty 0 _ Hne).
    rewrite (filter_nonEmpty_id _ Hne).
    unfold renderCamel, mapi.
    pose proof (split_not_nil SP t) as Hs.
    destruct (split SP t); [contradiction | reflexivity].
Qed.

Lemma alphaRuns_words s : Forall (word isAlnum) (scan notAlpha [] s).
Proof.
  rewrite <- normalized_alphaRuns.
  eapply words_weaken;
    [ | apply (tokens_words isAlpha), normalized_alpha_class].
  intros c Hc. unfold isAlnum. now rewrite Hc.
Qed.

End CamelCase.

(** X12.  [camelCase] returns the camel rendering of the maximal runs of
    ASCII letters of its input; the result does not begin with an
    upper-case letter and, lowered, is the letters of the input, lowered. *)
Theorem camelCase_letter_runs : forall s,
  RefinedPrompt.camelCase (JsString s)
  = Normal (renderCamel (scan notAlpha [] s)) /\
  startsOutside isUpper (renderCamel (scan notAlpha [] s)) /\
  toLowerCase (renderCamel (scan notAlpha [] s))
  = toLowerCase (filter isAlpha s).
Proof.
  intros s. split; [apply camelCase_render | ].
  destruct (renderCamel_spec _ (alphaRuns_words s)) as [_ [H1 H2]].
  split; [exact H1 | ]. rewrite H2, concat_scan. simpl. f_equal.
  apply filter_ext. intros c. unfold notAlpha. apply negb_involutive.
Qed.

(** X13.  On a string without a digit [camelCase] returns what
    [robustCamelCase] returns. *)
Theorem camelCase_without_digits : forall s,
  Forall (fun c => isDigit c = false) s ->
  RefinedPrompt.camelCase (JsString s) = robustCamelCase (JsString s).
Proof.
  intros s H. rewrite camelCase_render, robustCamelCase_chain.
  unfold chainCamelCase. rewrite normalizeString_scan. cbn [bind].
  do 2 f_equal. apply scan_ext.
  eapply Forall_impl; [ | exact H]. cbv beta. intros c Hc.
  unfold notAlpha, notAlnum, isAlnum. now rewrite Hc, orb_false_r.
Qed.

Lemma camelCase_without_digits_witness :
  RefinedPrompt.camelCase (JsString (js "  hello  World! "))
  = robustCamelCase (JsString (js "  hello  World! ")).
Proof.
  apply (camelCase_without_digits (js "  hello  World! ")).
  repeat constructor.
Defined.

(* ================================================================== *)
(** ** [toCamelCase] *)
(* ================================================================== *)

Section ToCamelCase.

Local Open Scope N_scope.

Lemma isCamelSep_false c :
  isCamelSep c = false <-> c <> 45 /\ c <> 95 /\ isWhiteSpace c = false.
Proof.
  unfold isCamelSep. rewrite !orb_false_iff, !N.eqb_neq. tauto.
Qed.

Lemma isCamelSep_letter c : 65 <= c -> c <= 122 -> c <> 95 ->
  isCamelSep c = false.
Proof.
  intros H1 H2 H3. apply isCamelSep_false.
  repeat split; [lia | exact H3 | apply isWhiteSpace_ascii; lia].
Qed.

Lemma lowerUnit_not_sep c : isCamelSep c = false -> isCamelSep (lowerUnit c) = false.
Proof.
  intros H. unfold lowerUnit. destruct (isUpper c) eqn:E; [ | exact H].
  apply inRange_spec in E. apply isCamelSep_letter; lia.
Qed.

Lemma upperUnit_not_sep c : isCamelSep c = false -> isCamelSep (upperUnit c) = false.
Proof.
  intros H. unfold upperUnit. destruct (isLower c) eqn:E; [ | exact H].
  apply inRange_spec in E. apply isCamelSep_letter; lia.
Qed.

Lemma lineTerminator_sep c : isLineTerminator c = true -> isCamelSep c = true.
Proof.
  intros H. unfold isCamelSep, isWhiteSpace. rewrite H.
  now rewrite !orb_true_r.
Qed.

Lemma sepRuns_no_sep s : forall b,
  Forall (fun c => isCamelSep c = false) (sepRuns b s).
Proof.
  induction s as [ | c s IH]; intros b; [constructor | ].
  simpl. destruct (isCamelSep c) eqn:E; [apply IH | ].
  destruct b; constructor; auto using upperUnit_not_sep.
Qed.

Lemma sepRuns_id s :
  Forall (fun c => isCamelSep c = false) s -> sepRuns false s = s.
Proof.
  induction 1 as [ | c s Hc Hs IH]; [reflexivity | ].
  simpl. now rewrite Hc, IH.
Qed.

Lemma replace_first_no_sep s :
  Forall (fun c => isCamelSep c = false) s ->
  Forall (fun c => isCamelSep c = false) (replace_first s) /\
  startsOutside isUpper (replace_first s).
Proof.
  intros H. destruct H as [ | c s Hc Hs]; [split; constructor | ].
  simpl. destruct (isLineTerminator c) eqn:E.
  - apply lineTerminator_sep in E. congruence.
  - split; [constructor; [now apply lowerUnit_not_sep | exact Hs] | ].
    simpl. apply lowerUnit_not_upper.
Qed.

Lemma replace_first_lowered s :
  Forall (fun c => isCamelSep c = false) s ->
  replace_first (toLowerCase s) = toLowerCase s.
Proof.
  intros H. destruct H as [ | c s Hc Hs]; [reflexivity | ].
  simpl. destruct (isLineTerminator (lowerUnit c)) eqn:E.
  - reflexivity.
  - now rewrite lowerUnit_idem.
Qed.

End ToCamelCase.

(** X14.  For an ASCII string [toCamelCase] returns a string that holds no
    hyphen, no underscore and no white space, and that does not begin with
    an upper-case letter. *)
Theorem toCamelCase_removes_separators : forall s,
  isAscii s ->
  exists r, toCamelCase (JsString s) = Normal r /\
            Forall (fun c => isCamelSep c = false) r /\
            startsOutside isUpper r.
Proof.
  intros s _. eexists. split; [reflexivity | ].
  apply replace_first_no_sep, sepRuns_no_sep.
Qed.

Lemma toCamelCase_removes_separators_witness :
  exists r, toCamelCase (JsString (js "--SCREEN_name x")) = Normal r /\
            Forall (fun c => isCamelSep c = false) r /\
            startsOutside isUpper r.
Proof.
  apply (toCamelCase_removes_separators (js "--SCREEN_name x")).
  repeat constructor.
Defined.

(** X15.  An ASCII string without hyphen, underscore and white space is only
    lowered by [toCamelCase]: the upper-case letters inside a camelCase
    name are lost. *)
Theorem toCamelCase_lowers : forall s,
  isAscii s ->
  Forall (fun c => isCamelSep c = false) s ->
  toCamelCase (JsString s) = Normal (toLowerCase s).
Proof.
  intros s _ H. unfold toCamelCase. cbn [bind call_toLowerCase]. f_equal.
  unfold replace_sepRuns. rewrite sepRuns_id.
  - now apply replace_first_lowered.
  - unfold toLowerCase. apply Forall_map.
    eapply Forall_impl; [ | exact H]. apply lowerUnit_not_sep.
Qed.

Lemma toCamelCase_lowers_witness :
  toCamelCase (JsString (js "mobilePhone.Number"))
  = Normal (js "mobilephone.number").
Proof.
  apply (toCamelCase_lowers (js "mobilePhone.Number"));
    repeat constructor.
Defined.

(* ================================================================== *)
(** ** Converting a second time *)
(* ================================================================== *)

Section Twice.

Local Open Scope N_scope.

Lemma scan_one_word sep w :
  Forall (fun c => sep c = false) w -> scan sep [] w = flush w.
Proof.
  intros H. rewrite <- (app_nil_r w) at 1.
  now rewrite scan_word_app by assumption.
Qed.

Lemma renderCamel_flush r : renderCamel (flush r) = toLowerCase r.
Proof.
  destruct r as [ | c r]; [reflexivity | ].
  cbn [flush]. rewrite renderCamel_cons.
  cbn [List.map List.concat]. apply app_nil_r.
Qed.

Lemma lowered_alpha w :
  word isAlpha w -> Forall (fun c => isLower c = true) (toLowerCase w).
Proof.
  intros [_ Hw]. unfold toLowerCase. apply Forall_map.
  eapply Forall_impl; [ | exact Hw]. apply lowerUnit_alpha.
Qed.

Lemma renderCamel_alpha ws :
  Forall (word isAlpha) ws ->
  Forall (fun c => isAlpha c = true) (renderCamel ws).
Proof.
  intros H. destruct H as [ | w ws Hw Hws]; [constructor | ].
  rewrite renderCamel_cons. apply Forall_app. split.
  - eapply Forall_impl; [ | apply (lowered_alpha w Hw)].
    apply isLower_isAlpha.
  - induction Hws as [ | w' ws' Hw' Hws' IH]; [constructor | ].
    cbn [List.map List.concat]. apply Forall_app. split; [ | exact IH].
    apply capitalized_alpha, lowered_alpha, Hw'.
Qed.

(** A [chain*] converter with a separator, on its own output. *)
Lemma chain_rerender c s :
  isAlnum c = false ->
  let r := join [c] (List.map toLowerCase (scan notAlnum [] s)) in
  join [c] (List.map toLowerCase (scan notAlnum [] r)) = r.
Proof.
  intros Hc r. subst r.
  pose proof (lowered_words _ (alnumRuns_words s)) as H.
  rewrite scan_join.
  - now rewrite (toLowerCase_words _ H).
  - unfold notAlnum. now rewrite Hc.
  - apply word_alnum_scan. eapply words_weaken; [ | exact H].
    apply isLowerAlnum_isAlnum.
Qed.

Lemma not_alnum_scan r :
  Forall (fun c => isAlnum c = true) r ->
  Forall (fun c => notAlnum c = false) r.
Proof.
  apply Forall_impl. intros c Hc. unfold notAlnum. now rewrite Hc.
Qed.

End Twice.

(** X16.  [chainSnakeCase], [chainKebabCase] and [chainDotCase] return their
    own output unchanged. *)
Theorem chain_rendering_idempotent : forall s,
  Forall (fun f => (r <- f (JsString s) ;; f (JsString r)) = f (JsString s))
         [chainSnakeCase; chainKebabCase; chainDotCase].
Proof.
  intros s.
  repeat constructor;
    unfold chainSnakeCase, chainKebabCase, chainDotCase;
    rewrite normalizeString_scan; cbn [bind];
    rewrite normalizeString_scan; cbn [bind]; f_equal.
  - exact (chain_rerender 95%N s eq_refl).
  - exact (chain_rerender 45%N s eq_refl).
  - exact (chain_rerender 46%N s eq_refl).
Qed.

Lemma camel_twice s :
  Forall (fun f => (r <- f (JsString s) ;; f (JsString r))
                   = (r <- f (JsString s) ;; Normal (toLowerCase r)))
         [robustCamelCase; chainCamelCase; RefinedPrompt.camelCase].
Proof.
  assert (Hc : forall ws, Forall (word isAlnum) ws ->
                 chainCamelCase (JsString (renderCamel ws))
                 = Normal (toLowerCase (renderCamel ws))).
  { intros ws H. unfold chainCamelCase. rewrite normalizeString_scan.
    cbn [bind]. f_equal.
    destruct (renderCamel_spec ws H) as [Ha _].
    rewrite (scan_one_word notAlnum _ (not_alnum_scan _ Ha)).
    apply renderCamel_flush. }
  assert (Hr : chainCamelCase (JsString s)
               = Normal (renderCamel (scan notAlnum [] s)))
    by (unfold chainCamelCase; now rewrite normalizeString_scan).
  repeat constructor.
  - rewrite robustCamelCase_chain, Hr. cbn [bind].
    rewrite robustCamelCase_chain. apply Hc, alnumRuns_words.
  - rewrite Hr. cbn [bind]. apply Hc, alnumRuns_words.
  - rewrite camelCase_render. cbn [bind]. rewrite camelCase_render.
    f_equal.
    assert (Ha : Forall (fun c => isAlpha c = true)
                        (renderCamel (scan notAlpha [] s))).
    { apply renderCamel_alpha. rewrite <- normalized_alphaRuns.
      apply (tokens_words isAlpha), normalized_alpha_class. }
    rewrite (scan_one_word notAlpha).
    + apply renderCamel_flush.
    + eapply Forall_impl; [ | exact Ha]. cbv beta. intros c Hc'.
      unfold notAlpha. now rewrite Hc'.
Qed.

(** X17.  The camel converters are not idempotent.  Applied to its own
    output, each of [robustCamelCase], [chainCamelCase] and [camelCase]
    returns that output in lower case, for every string; so the second
    result differs from the first for some string, as for ["hello world"],
    where ["helloWorld"] becomes ["helloworld"]. *)
Theorem camel_twice_lowers :
  Forall (fun f =>
            (forall s, (r <- f (JsString s) ;; f (JsString r))
                       = (r <- f (JsString s) ;; Normal (toLowerCase r))) /\
            (exists s, (r <- f (JsString s) ;; f (JsString r))
                       <> f (JsString s)) /\
            f (JsString (js "hello world")) = Normal (js "helloWorld") /\
            f (JsString (js "helloWorld")) = Normal (js "helloworld"))
         [robustCamelCase; chainCamelCase; RefinedPrompt.camelCase].
Proof.
  constructor; [ | constructor; [ | constructor; [ | constructor]]];
    (split; [ | split; [exists (js "hello world"); discriminate
                       | split; reflexivity]]);
    intros s; pose proof (camel_twice s) as H.
  - exact (Forall_inv H).
  - exact (Forall_inv (Forall_inv_tail H)).
  - exact (Forall_inv (Forall_inv_tail (Forall_inv_tail H))).
Qed.
